(** * A browser-to-browser file transfer: signaling relay and transfer engine

    Shallow embedding of [src/p2p/i.js] (the relay server) and of
    [src/p2p/public/app.js] (the browser client), with the properties the
    specification states about them.

    Conventions.
    - JavaScript values that cross a wire (signaling payloads, the metadata
      control message, HTTP bodies) are [json] trees; [JSON.stringify] is
      taken as an injective encoding, so a text message is its tree.
    - A property that reads [undefined] is an [option] that is [None].
    - The client's globals ([state], [elements], the peer objects that
      [state.peer] points to, the log) live in one [World]; handlers are
      computations in a state-and-exception monad over it. *)

From Equations Require Import Equations.
From stdpp Require Import base option list strings gmap pretty.
From Stdlib Require Import ZArith Lia Init.Byte.

Set Default Proof Using "Type".
Set Warnings "-register-all,-clear-no-such-hyp".
Local Open Scope string_scope.
Local Open Scope list_scope.
Local Open Scope nat_scope.

(** ** JSON values *)

Inductive json : Type :=
| JNull
| JBool (b : bool)
| JNum (n : Z)
| JStr (s : string)
| JArr (items : list json)
| JObj (fields : list (string * json)).

(** [obj.key]: the first binding of [key], [None] for [undefined]. *)
Fixpoint assoc {A : Type} (key : string) (fields : list (string * A)) : option A :=
  match fields with
  | [] => None
  | (k, v) :: rest => if String.eqb k key then Some v else assoc key rest
  end.

Definition get_prop (key : string) (o : json) : option json :=
  match o with
  | JObj fields => assoc key fields
  | _ => None
  end.

(** An object literal whose property values may be [undefined];
    [JSON.stringify] leaves such properties out. *)
Definition stringify_fields (fields : list (string * option json)) : json :=
  JObj (omap (fun kv => match snd kv with
                        | Some v => Some (fst kv, v)
                        | None => None
                        end) fields).

(** A template-literal hole: [undefined] prints as the word. *)
Definition interpolate (v : option string) : string :=
  match v with Some s => s | None => "undefined" end.

(** ** The relay server, [i.js] *)

Module Relay.

Definition EndpointId := string.

(** One message put on one socket. *)
Record Emit := mkEmit {
  recipient : EndpointId;
  event : string;
  args : list json
}.

(** [io.sockets.sockets] (connected sockets, in connection order), the
    sockets whose [setInterval] timer is armed, and the console. *)
Record Server := mkServer {
  sockets : list EndpointId;
  intervals : list EndpointId;
  console : list string
}.

Definition start : Server :=
  {| sockets := []; intervals := []; console := [] |}.

(** [socket.emit(ev, ...)]: to the socket itself. *)
Definition socket_emit (self : EndpointId) (ev : string) (a : list json) : list Emit :=
  [mkEmit self ev a].

(** The second argument of a signaling event, as the client sent it and as
    the listener hands it on to [socket.to]: one socket id; an array, whose
    items are socket ids or ([None]) values that name no room; or any other
    value ([undefined] when the client sent none), which names no room. *)
Inductive Target :=
| Room (room : EndpointId)
| Rooms (rooms : list (option EndpointId))
| NoRoom.

(** A socket sits in the room named by its own id and the relay joins no
    other room, so room [r] holds socket [r] when it is connected. *)
Definition room_members (sv : Server) (room : EndpointId) : list EndpointId :=
  if decide (room ∈ sockets sv) then [room] else [].

(** The rooms of an array are collected in a set, which keeps the first
    occurrence of each. *)
Definition first_occurrences (l : list EndpointId) : list EndpointId :=
  reverse (remove_dups (reverse l)).

(** The sockets [socket.to(target)] addresses, before the emitting socket
    is left out: the members of the rooms named, room after room. An empty
    array sets no room, and a broadcast with no room goes to every
    socket. *)
Definition addressed (sv : Server) (target : Target) : list EndpointId :=
  match target with
  | Room room => room_members sv room
  | Rooms [] => sockets sv
  | Rooms rooms =>
      first_occurrences (omap (fun item => item) rooms) ≫= room_members sv
  | NoRoom => []
  end.

(** [socket.to(target).emit(ev, ...)]: every addressed socket except the
    emitting one. *)
Definition socket_to_emit (sv : Server) (self : EndpointId) (target : Target)
    (ev : string) (a : list json) : list Emit :=
  (fun r => mkEmit r ev a) <$>
    filter (fun r => r ≠ self) (addressed sv target).

(** [broadcastPeers], i.js:32-36. *)
Definition broadcastPeers (sv : Server) (self : EndpointId) : list Emit :=
  let peers := filter (fun id => id ≠ self) (sockets sv) in
  socket_emit self "peers" [JArr (JStr <$> peers)].

(** The listeners [socket.on(name, ...)] registers, i.js:45-55.
    A listener gets the two arguments of the event. *)
Definition Listener := Server -> EndpointId -> json -> Target -> list Emit.

Definition on_offer : Listener := fun sv self offer targetId =>
  socket_to_emit sv self targetId "offer" [offer; JStr self].

Definition on_answer : Listener := fun sv self answer targetId =>
  socket_to_emit sv self targetId "answer" [answer].

Definition on_ice_candidate : Listener := fun sv self candidate targetId =>
  socket_to_emit sv self targetId "ice-candidate" [candidate].

Definition listeners : list (string * Listener) :=
  [ ("offer", on_offer);
    ("answer", on_answer);
    ("ice-candidate", on_ice_candidate) ].

(** What reaches the server's event loop. *)
Inductive Input :=
| Connection (id : EndpointId)
| Disconnect (id : EndpointId)
| Tick (id : EndpointId)
| Packet (id : EndpointId) (name : string) (payload : json) (targetId : Target).

Definition remove (id : EndpointId) (l : list EndpointId) : list EndpointId :=
  filter (fun x => x ≠ id) l.

Definition step (sv : Server) (i : Input) : Server * list Emit :=
  match i with
  | Connection id =>
      ({| sockets := if decide (id ∈ sockets sv) then sockets sv
                     else sockets sv ++ [id];
          intervals := id :: intervals sv;
          console := console sv ++ ["Client connected: " +:+ id] |}, [])
  | Disconnect id =>
      ({| sockets := remove id (sockets sv);
          intervals := remove id (intervals sv);
          console := console sv ++ ["Client disconnected: " +:+ id] |}, [])
  | Tick id =>
      (sv, if decide (id ∈ intervals sv) then broadcastPeers sv id else [])
  | Packet id name payload targetId =>
      (sv, match assoc name listeners with
           | Some listener => listener sv id payload targetId
           | None => []
           end)
  end.

Fixpoint run (sv : Server) (inputs : list Input) : Server * list Emit :=
  match inputs with
  | [] => (sv, [])
  | i :: rest =>
      let '(sv1, out1) := step sv i in
      let '(sv2, out2) := run sv1 rest in
      (sv2, out1 ++ out2)
  end.

(** *** [GET /network], i.js:20-25 *)

(** What [ip.address()] does: it returns a value or throws. *)
Inductive IpLookup :=
| IpReturns (v : option string)
| IpThrows (message : string).

Record Env := mkEnv {
  ip_address : IpLookup;
  CODESPACE_NAME : option string;
  GITHUB_CODESPACES_PORT_FORWARDING_DOMAIN : option string
}.

Inductive Response :=
| Json200 (body : json)
| Error500 (message : string).

Definition publicUrl (env : Env) : string :=
  "https://" +:+ interpolate (CODESPACE_NAME env) +:+ "-3000." +:+
  interpolate (GITHUB_CODESPACES_PORT_FORWARDING_DOMAIN env).

(** The handler has no [try]; an exception of [ip.address()] reaches the
    framework, which answers with status 500. *)
Definition get_network (env : Env) : Response :=
  match ip_address env with
  | IpThrows message => Error500 message
  | IpReturns v =>
      Json200 (stringify_fields
                 [ ("localIp", JStr <$> v);
                   ("publicUrl", Some (JStr (publicUrl env))) ])
  end.

(** The reading of "every request is answered with the two-field object,
    the first field being [null] when the lookup gave no address". *)
Definition answers_null_on_failure (env : Env) : Prop :=
  ∃ localIp,
    get_network env =
      Json200 (JObj [("localIp", localIp); ("publicUrl", JStr (publicUrl env))]) ∧
    ((∀ a, ip_address env ≠ IpReturns (Some a)) → localIp = JNull).

(** Whether a target names socket [x], were it connected. *)
Definition names (target : Target) (x : EndpointId) : Prop :=
  match target with
  | Room room => x = room
  | Rooms [] => True
  | Rooms rooms => Some x ∈ rooms
  | NoRoom => False
  end.

End Relay.

(** ** The browser client, [public/app.js] *)

Module Client.

(** *** Data *)

(** A [File] of the browser: its size is the length of its bytes. *)
Record File := mkFile {
  name : string;
  type : string;
  lastModified : Z;
  content : list byte
}.

Definition size (f : File) : nat := length (content f).

(** [file.slice(start, stop)]. *)
Definition slice (f : File) (start stop : nat) : list byte :=
  take (stop - start) (drop start (content f)).

(** What travels on the data channel: a JSON text or a binary chunk. *)
Inductive Message :=
| Text (j : json)
| Binary (chunk : list byte).

(** A [SimplePeer] object. [send_faults] scripts the coming calls of
    [send] ([Some m]: that call throws an error with message [m]);
    [destroy_fault] does the same for [destroy]. [sent] is what the channel
    accepted, oldest first; the channel delivers it in this order. *)
Record Peer := mkPeer {
  initiator : bool;
  connected : bool;
  destroyed : bool;
  send_faults : list (option string);
  destroy_fault : option string;
  sent : list Message;
  handlers : list string
}.

(** The options object handed to [io(...)]. *)
Record IoOptions := mkIoOptions {
  reconnection : option bool;
  reconnectionAttempts : option nat;
  reconnectionDelay : option nat;
  transports : list string
}.

Record Socket := mkSocket {
  options : IoOptions;
  id : string;
  socket_connected : bool;
  emitted : list (string * list json)
}.

(** The global [state], app.js:2-16. [peer] is a reference into
    [World.peers]. *)
Record State := mkState {
  socket : option Socket;
  peer : option nat;
  localPeerId : string;
  selectedPeerId : string;
  fileQueue : list File;
  currentFileIndex : nat;
  currentFile : option File;
  currentOffset : nat;
  receivedBuffers : gmap nat (list (list byte));
  receivedSize : nat;
  totalSize : nat;
  connectionAttempts : nat;
  maxConnectionAttempts : nat
}.

(** The global [config], app.js:18-27, as the object it is. *)
Definition config : json :=
  JObj [ ("CHUNK_SIZE", JNum 16384);
         ("ICE_SERVERS",
            JArr [ JObj [("urls", JStr "stun:stun.l.google.com:19302")];
                   JObj [("urls", JStr "stun:stun1.l.google.com:19302")];
                   JObj [("urls", JStr "stun:stun2.l.google.com:19302")] ]);
         ("RECONNECT_DELAY", JNum 3000);
         ("TRANSFER_TIMEOUT", JNum 30000) ].

(** [config.key] read as a number; [None] when the property is missing. *)
Definition config_number (key : string) : option nat :=
  match get_prop key config with
  | Some (JNum n) => Some (Z.to_nat n)
  | _ => None
  end.

Definition CHUNK_SIZE : nat := default 0 (config_number "CHUNK_SIZE").
Definition RECONNECT_DELAY : nat := default 0 (config_number "RECONNECT_DELAY").
Definition TRANSFER_TIMEOUT : nat := default 0 (config_number "TRANSFER_TIMEOUT").

Global Opaque CHUNK_SIZE.

(** A DOM element, with the properties the client touches. *)
Record Element := mkElement {
  textContent : string;
  value : Z;
  disabled : bool;
  files : option (list File);
  children : list (string * string * nat)
}.

(** The [elements] cache, app.js:30-45, restricted to the elements the
    functions below use. [getElementById] gives [null] for a missing id. *)
Record Elements := mkElements {
  discoverBtn : option Element;
  fileSelector : option Element;
  fileList : option Element;
  sendBtn : option Element;
  progressBar : option Element;
  progressText : option Element;
  speedText : option Element
}.

(** Timers armed with [setTimeout] / [setInterval] and not yet cleared. *)
Inductive Timer :=
| TransferTimeout (owner : nat)
| DiscoveryInterval
| Reinitialize.

#[global] Instance Timer_eq_dec : EqDecision Timer.
Proof. solve_decision. Defined.

Record World := mkWorld {
  state : State;
  elements : Elements;
  peers : list Peer;
  timers : list Timer;
  log : list (string * string);
  console : list string;
  online : bool;
  now : Z
}.

(** *** Handlers as computations: state and exceptions *)

Inductive Result (A : Type) :=
| Ok (a : A) (w : World)
| Throw (error : string) (w : World).
Arguments Ok {A} a w.
Arguments Throw {A} error w.

Definition M (A : Type) : Type := World -> Result A.

Definition ret {A} (a : A) : M A := fun w => Ok a w.

Definition bind {A B} (c : M A) (k : A -> M B) : M B := fun w =>
  match c w with
  | Ok a w' => k a w'
  | Throw e w' => Throw e w'
  end.

Definition throw {A} (e : string) : M A := fun w => Throw e w.

(** [try { c } catch (error) { h error }]. *)
Definition try_catch {A} (c : M A) (h : string -> M A) : M A := fun w =>
  match c w with
  | Ok a w' => Ok a w'
  | Throw e w' => h e w'
  end.

Definition gets {A} (f : World -> A) : M A := fun w => Ok (f w) w.
Definition modify (f : World -> World) : M unit := fun w => Ok tt (f w).

Notation "x <- c ;; k" := (bind c (fun x => k))
  (at level 100, c at next level, right associativity).
Notation "c ;;; k" := (bind c (fun _ => k))
  (at level 100, right associativity).

Definition world_of {A} (r : Result A) : World :=
  match r with Ok _ w => w | Throw _ w => w end.

(** *** Field updates *)

Definition set_state (f : State -> State) (w : World) : World :=
  mkWorld (f (state w)) (elements w) (peers w) (timers w) (log w) (console w)
          (online w) (now w).
Definition set_elements (f : Elements -> Elements) (w : World) : World :=
  mkWorld (state w) (f (elements w)) (peers w) (timers w) (log w) (console w)
          (online w) (now w).
Definition set_peers (f : list Peer -> list Peer) (w : World) : World :=
  mkWorld (state w) (elements w) (f (peers w)) (timers w) (log w) (console w)
          (online w) (now w).
Definition set_timers (f : list Timer -> list Timer) (w : World) : World :=
  mkWorld (state w) (elements w) (peers w) (f (timers w)) (log w) (console w)
          (online w) (now w).
Definition set_log (f : list (string * string) -> list (string * string))
    (w : World) : World :=
  mkWorld (state w) (elements w) (peers w) (timers w) (f (log w)) (console w)
          (online w) (now w).
Definition set_console (f : list string -> list string) (w : World) : World :=
  mkWorld (state w) (elements w) (peers w) (timers w) (log w) (f (console w))
          (online w) (now w).
Definition set_online (b : bool) (w : World) : World :=
  mkWorld (state w) (elements w) (peers w) (timers w) (log w) (console w)
          b (now w).

Definition set_socket (v : option Socket) (s : State) : State :=
  mkState v (peer s) (localPeerId s) (selectedPeerId s) (fileQueue s)
          (currentFileIndex s) (currentFile s) (currentOffset s)
          (receivedBuffers s) (receivedSize s) (totalSize s)
          (connectionAttempts s) (maxConnectionAttempts s).
Definition set_peer (v : option nat) (s : State) : State :=
  mkState (socket s) v (localPeerId s) (selectedPeerId s) (fileQueue s)
          (currentFileIndex s) (currentFile s) (currentOffset s)
          (receivedBuffers s) (receivedSize s) (totalSize s)
          (connectionAttempts s) (maxConnectionAttempts s).
Definition set_localPeerId (v : string) (s : State) : State :=
  mkState (socket s) (peer s) v (selectedPeerId s) (fileQueue s)
          (currentFileIndex s) (currentFile s) (currentOffset s)
          (receivedBuffers s) (receivedSize s) (totalSize s)
          (connectionAttempts s) (maxConnectionAttempts s).
Definition set_selectedPeerId (v : string) (s : State) : State :=
  mkState (socket s) (peer s) (localPeerId s) v (fileQueue s)
          (currentFileIndex s) (currentFile s) (currentOffset s)
          (receivedBuffers s) (receivedSize s) (totalSize s)
          (connectionAttempts s) (maxConnectionAttempts s).
Definition set_fileQueue (v : list File) (s : State) : State :=
  mkState (socket s) (peer s) (localPeerId s) (selectedPeerId s) v
          (currentFileIndex s) (currentFile s) (currentOffset s)
          (receivedBuffers s) (receivedSize s) (totalSize s)
          (connectionAttempts s) (maxConnectionAttempts s).
Definition set_currentFileIndex (v : nat) (s : State) : State :=
  mkState (socket s) (peer s) (localPeerId s) (selectedPeerId s) (fileQueue s)
          v (currentFile s) (currentOffset s)
          (receivedBuffers s) (receivedSize s) (totalSize s)
          (connectionAttempts s) (maxConnectionAttempts s).
Definition set_currentOffset (v : nat) (s : State) : State :=
  mkState (socket s) (peer s) (localPeerId s) (selectedPeerId s) (fileQueue s)
          (currentFileIndex s) (currentFile s) v
          (receivedBuffers s) (receivedSize s) (totalSize s)
          (connectionAttempts s) (maxConnectionAttempts s).
Definition set_receivedSize (v : nat) (s : State) : State :=
  mkState (socket s) (peer s) (localPeerId s) (selectedPeerId s) (fileQueue s)
          (currentFileIndex s) (currentFile s) (currentOffset s)
          (receivedBuffers s) v (totalSize s)
          (connectionAttempts s) (maxConnectionAttempts s).
Definition set_totalSize (v : nat) (s : State) : State :=
  mkState (socket s) (peer s) (localPeerId s) (selectedPeerId s) (fileQueue s)
          (currentFileIndex s) (currentFile s) (currentOffset s)
          (receivedBuffers s) (receivedSize s) v
          (connectionAttempts s) (maxConnectionAttempts s).
Definition set_connectionAttempts (v : nat) (s : State) : State :=
  mkState (socket s) (peer s) (localPeerId s) (selectedPeerId s) (fileQueue s)
          (currentFileIndex s) (currentFile s) (currentOffset s)
          (receivedBuffers s) (receivedSize s) (totalSize s)
          v (maxConnectionAttempts s).

Definition set_textContent (v : string) (e : Element) : Element :=
  mkElement v (value e) (disabled e) (files e) (children e).
Definition set_value (v : Z) (e : Element) : Element :=
  mkElement (textContent e) v (disabled e) (files e) (children e).
Definition set_disabled (v : bool) (e : Element) : Element :=
  mkElement (textContent e) (value e) v (files e) (children e).
Definition set_children (v : list (string * string * nat)) (e : Element) : Element :=
  mkElement (textContent e) (value e) (disabled e) (files e) v.

Definition set_discoverBtn (v : option Element) (e : Elements) : Elements :=
  mkElements v (fileSelector e) (fileList e) (sendBtn e) (progressBar e)
             (progressText e) (speedText e).
Definition set_fileList (v : option Element) (e : Elements) : Elements :=
  mkElements (discoverBtn e) (fileSelector e) v (sendBtn e) (progressBar e)
             (progressText e) (speedText e).
Definition set_sendBtn (v : option Element) (e : Elements) : Elements :=
  mkElements (discoverBtn e) (fileSelector e) (fileList e) v (progressBar e)
             (progressText e) (speedText e).
Definition set_progressBar (v : option Element) (e : Elements) : Elements :=
  mkElements (discoverBtn e) (fileSelector e) (fileList e) (sendBtn e) v
             (progressText e) (speedText e).
Definition set_progressText (v : option Element) (e : Elements) : Elements :=
  mkElements (discoverBtn e) (fileSelector e) (fileList e) (sendBtn e)
             (progressBar e) v (speedText e).
Definition set_speedText (v : option Element) (e : Elements) : Elements :=
  mkElements (discoverBtn e) (fileSelector e) (fileList e) (sendBtn e)
             (progressBar e) (progressText e) v.

Definition set_connected (v : bool) (p : Peer) : Peer :=
  mkPeer (initiator p) v (destroyed p) (send_faults p) (destroy_fault p)
         (sent p) (handlers p).
Definition set_destroyed (v : bool) (p : Peer) : Peer :=
  mkPeer (initiator p) (connected p) v (send_faults p) (destroy_fault p)
         (sent p) (handlers p).
Definition set_send_faults (v : list (option string)) (p : Peer) : Peer :=
  mkPeer (initiator p) (connected p) (destroyed p) v (destroy_fault p)
         (sent p) (handlers p).
Definition set_sent (v : list Message) (p : Peer) : Peer :=
  mkPeer (initiator p) (connected p) (destroyed p) (send_faults p)
         (destroy_fault p) v (handlers p).
Definition set_handlers (v : list string) (p : Peer) : Peer :=
  mkPeer (initiator p) (connected p) (destroyed p) (send_faults p)
         (destroy_fault p) (sent p) v.

Definition set_emitted (v : list (string * list json)) (s : Socket) : Socket :=
  mkSocket (options s) (id s) (socket_connected s) v.

(** [elements.x.prop = v]: a [TypeError] when the element is [null]. *)
Definition assign (get : Elements -> option Element)
    (set : option Element -> Elements -> Elements)
    (f : Element -> Element) : M unit := fun w =>
  match get (elements w) with
  | Some e => Ok tt (set_elements (set (Some (f e))) w)
  | None => Throw "TypeError: Cannot set properties of null" w
  end.

(** *** The peer object *)

(** [state.peer.connected], falsy for a reference without an object. *)
Definition peer_connected (w : World) (r : nat) : bool :=
  match peers w !! r with
  | Some p => connected p
  | None => false
  end.

(** [peer.send(data)]: consumes one entry of the fault script. *)
Definition peer_send (r : nat) (data : Message) : M unit := fun w =>
  match peers w !! r with
  | None => Throw "TypeError: send is not a function" w
  | Some p =>
      let script := tail (send_faults p) in
      match head (send_faults p) with
      | Some (Some message) =>
          Throw message (set_peers (<[r := set_send_faults script p]>) w)
      | _ =>
          Ok tt (set_peers
                   (<[r := set_sent (sent p ++ [data]) (set_send_faults script p)]>)
                   w)
      end
  end.

(** [peer.destroy()]. *)
Definition peer_destroy (r : nat) : M unit := fun w =>
  match peers w !! r with
  | None => Throw "TypeError: destroy is not a function" w
  | Some p =>
      match destroy_fault p with
      | Some message => Throw message w
      | None =>
          Ok tt (set_peers (<[r := set_destroyed true (set_connected false p)]>) w)
      end
  end.

(** [new SimplePeer({ initiator, ... })]: a fresh object, its reference. *)
Definition new_SimplePeer (init : bool) : M nat := fun w =>
  Ok (length (peers w))
     (set_peers (fun h => h ++ [mkPeer init false false [] None [] []]) w).

(** [peer.on(ev, ...)]. *)
Definition peer_on (r : nat) (ev : string) : M unit := fun w =>
  match peers w !! r with
  | None => Throw "TypeError: on is not a function" w
  | Some p => Ok tt (set_peers (<[r := set_handlers (handlers p ++ [ev]) p]>) w)
  end.

(** [state.socket.emit(ev, ...)]. *)
Definition socket_emit (ev : string) (a : list json) : M unit := fun w =>
  match socket (state w) with
  | None => Throw "TypeError: Cannot read properties of null" w
  | Some s =>
      Ok tt (set_state (set_socket (Some (set_emitted (emitted s ++ [(ev, a)]) s))) w)
  end.

(** *** Helpers that the source calls and does not define *)

(** Modelled from the spec: [logMessage] is called throughout app.js and
    defined nowhere in it. Section 7 has every failure surfaced through a
    log sink, so it appends the message and its level to [log]. *)
Definition logMessage (message level : string) : M unit :=
  modify (set_log (fun l => l ++ [(message, level)])).

(** Modelled from the spec: [updateConnectionStatus] is not in app.js.
    Section 7 has the relay connection surfaced as a status indicator. *)
Definition updateConnectionStatus (up : bool) : M unit :=
  modify (set_online up).

(** Modelled from the spec: [setupPeerEvents] is not in app.js. Section 4.2
    (b) has the engine listen for the inbound messages of the channel; it
    registers those listeners on [state.peer] and does nothing else. *)
Definition setupPeerEvents : M unit :=
  r <- gets (fun w => peer (state w));;
  match r with
  | Some r => peer_on r "data";;; peer_on r "close";;; peer_on r "error"
  | None => throw "TypeError: Cannot read properties of null"
  end.

Definition console_error (message : string) : M unit :=
  modify (set_console (fun l => l ++ [message])).

Definition console_warn (message : string) : M unit :=
  modify (set_console (fun l => l ++ [message])).

(** *** [sendData], app.js:254-267 *)

Definition sendData (data : Message) : M bool :=
  r <- gets (fun w => peer (state w));;
  up <- gets (fun w => from_option (peer_connected w) false r);;
  match r with
  | Some r =>
      if negb up then
        logMessage "Cannot send data - peer not connected" "error";;;
        ret false
      else
        try_catch
          (peer_send r data;;; ret true)
          (fun error =>
             logMessage ("Failed to send data: " +:+ error) "error";;;
             ret false)
  | None =>
      logMessage "Cannot send data - peer not connected" "error";;;
      ret false
  end.

(** *** [cleanup], app.js:270-287 *)

Definition cleanup : M unit :=
  r <- gets (fun w => peer (state w));;
  match r with
  | Some r =>
      try_catch
        (peer_destroy r)
        (fun error => console_error ("Error cleaning up peer: " +:+ error));;;
      modify (set_state (set_peer None))
  | None => ret tt
  end;;;
  modify (set_state (set_selectedPeerId ""));;;
  assign discoverBtn set_discoverBtn (set_textContent "Discover Peers");;;
  assign progressBar set_progressBar (set_value 0);;;
  assign progressText set_progressText (set_textContent "0%");;;
  assign speedText set_speedText (set_textContent "Speed: 0 KB/s").

(** *** The sender loop *)

(** Bytes and files still to go, plus one per file: what the loop below
    consumes. *)
Definition remaining (w : World) : nat :=
  match drop (currentFileIndex (state w)) (fileQueue (state w)) with
  | [] => 0
  | f :: rest =>
      S (size f - currentOffset (state w)) + sum_list ((S ∘ size) <$> rest)
  end.

(** Modelled from the spec: [sendNextFile] is called by [startFileTransfer]
    and is not in app.js. Section 4.3, sender steps 3 to 5: for the file at
    the current index, slice up to [CHUNK_SIZE] unsent bytes and send them as
    a chunk, advance the offset; when the offset reaches the file's size
    (at once for an empty file), move to the next index with offset 0; past
    the last file the session is all sent. A failed send is reported and
    halts the loop. [fuel] bounds the iterations. *)
Fixpoint sendNextFile_loop (fuel : nat) : M unit :=
  match fuel with
  | 0 => throw "sendNextFile: iteration bound reached"
  | S fuel =>
      st <- gets state;;
      match fileQueue st !! currentFileIndex st with
      | None => ret tt
      | Some file =>
          if decide (size file ≤ currentOffset st) then
            modify (set_state (fun s =>
              set_currentOffset 0 (set_currentFileIndex (S (currentFileIndex s)) s)));;;
            sendNextFile_loop fuel
          else
            let chunk := slice file (currentOffset st) (currentOffset st + CHUNK_SIZE) in
            sent_ok <- sendData (Binary chunk);;
            if sent_ok then
              modify (set_state (fun s =>
                set_currentOffset (currentOffset s + length chunk) s));;;
              sendNextFile_loop fuel
            else
              logMessage "Transfer failed" "error"
      end
  end.

(** Modelled from the spec: the loop above with a bound it cannot reach,
    one iteration per chunk and per file still to go, and one more. *)
Definition sendNextFile : M unit := fun w =>
  sendNextFile_loop (S (remaining w)) w.

(** *** [startFileTransfer], app.js:229-251 *)

Definition descriptor (file : File) : json :=
  JObj [ ("name", JStr (name file));
         ("type", JStr (type file));
         ("size", JNum (Z.of_nat (size file)));
         ("lastModified", JNum (lastModified file)) ].

(** The object literal of app.js:242-247, [filesMetadata] included. *)
Definition metadata (queue : list File) (total : nat) (timestamp : Z) : json :=
  JObj [ ("type", JStr "metadata");
         ("files", JArr (descriptor <$> queue));
         ("totalSize", JNum (Z.of_nat total));
         ("timestamp", JNum timestamp) ].

(** The function takes the loop it hands over to as [next]; the source calls
    [sendNextFile]. The result of [sendData] is dropped, as in the source. *)
Definition startFileTransfer_with (next : M unit) : M unit :=
  modify (set_state (fun s =>
    set_receivedSize 0 (set_currentOffset 0 (set_currentFileIndex 0 s))));;;
  st <- gets state;;
  timestamp <- gets now;;
  _ <- sendData (Text (metadata (fileQueue st) (totalSize st) timestamp));;
  next.

Definition startFileTransfer : M unit := startFileTransfer_with sendNextFile.

(** *** [initiateTransfer], app.js:182-226, and the callbacks it installs *)

Definition initiateTransfer : M unit :=
  st <- gets state;;
  if String.eqb (selectedPeerId st) "" || Nat.eqb (length (fileQueue st)) 0 then
    logMessage "Please select a peer and files first" "error"
  else
    logMessage "Initiating transfer..." "info";;;
    match peer st with
    | Some old => peer_destroy old;;; modify (set_state (set_peer None))
    | None => ret tt
    end;;;
    r <- new_SimplePeer true;;
    modify (set_state (set_peer (Some r)));;;
    setupPeerEvents;;;
    modify (set_timers (fun t => t ++ [TransferTimeout r]));;;
    peer_on r "connect";;;
    peer_on r "signal".

(** The [setTimeout] callback, app.js:205-210; it looks at [state.peer] as
    it is when the timer fires. *)
Definition on_transfer_timeout : M unit :=
  r <- gets (fun w => peer (state w));;
  up <- gets (fun w => from_option (peer_connected w) false r);;
  if bool_decide (is_Some r) && negb up then
    logMessage "Transfer timeout - connection took too long" "error";;;
    cleanup
  else ret tt.

(** The ['connect'] listener, app.js:212-216, of the peer [owner]. *)
Definition on_peer_connect (owner : nat) : M unit :=
  modify (set_timers (filter (fun t => t ≠ TransferTimeout owner)));;;
  logMessage "Peer connection established!" "success";;;
  startFileTransfer.

(** The truth value JavaScript gives a property read: [undefined], [null],
    [false], [0] and the empty string count as false, any other value,
    arrays and objects included, as true. *)
Definition truthy (v : option json) : bool :=
  match v with
  | None | Some JNull | Some (JBool false) | Some (JNum 0%Z) | Some (JStr "") =>
      false
  | Some _ => true
  end.

(** The ['signal'] listener, app.js:218-225. Reading [data.type] throws
    when [data] is [null]; on a value that has no such property it gives
    [undefined]. *)
Definition on_peer_signal (data : json) : M unit :=
  match data with
  | JNull => throw "TypeError: Cannot read properties of null"
  | _ =>
      target <- gets (fun w => selectedPeerId (state w));;
      if match get_prop "type" data with
         | Some (JStr t) => String.eqb t "offer"
         | _ => false
         end then
        socket_emit "offer" [data; JStr target];;;
        logMessage "Sent offer to peer" "info"
      else if truthy (get_prop "candidate" data) then
        socket_emit "ice-candidate" [data; JStr target]
      else ret tt
  end.

(** *** [handleFileSelect], app.js:147-179 *)

Section FileSelection.

(** [formatFileSize] is called by the source and not defined in it; it only
    produces display text. *)
Variable formatFileSize : nat -> string.

Definition handleFileSelect : M unit :=
  selector <- gets (fun w => fileSelector (elements w));;
  match selector with
  | None => throw "TypeError: Cannot read properties of null"
  | Some selector =>
      let files := files selector in
      assign fileList set_fileList (set_children []);;;
      modify (set_state (set_fileQueue []));;;
      match files with
      | None | Some [] => ret tt
      | Some (first :: others) =>
          let queue := first :: others in
          modify (set_state (set_fileQueue queue));;;
          modify (set_state (fun s =>
            set_totalSize
              (foldl (fun sum file => sum + size file) 0 (fileQueue s)) s));;;
          queue <- gets (fun w => fileQueue (state w));;
          assign fileList set_fileList
            (set_children
               (imap (fun index file =>
                        (name file, formatFileSize (size file), index)) queue));;;
          assign sendBtn set_sendBtn (set_disabled false);;;
          total <- gets (fun w => totalSize (state w));;
          logMessage ("Selected " +:+ pretty (length queue) +:+ " files (" +:+
                      formatFileSize total +:+ ")") "info"
      end
  end.

(** The click listener of a remove button, app.js:170-174:
    [splice(index, 1)], then the list is rebuilt from the selector. *)
Definition on_remove_click (index : nat) : M unit :=
  modify (set_state (fun s => set_fileQueue (delete index (fileQueue s)) s));;;
  handleFileSelect.

End FileSelection.

(** *** The signaling socket, app.js:80-144 *)

(** The options literal of [io(...)], app.js:81-86. The bound on attempts is
    read from [config], where no such property exists. *)
Definition io_options : IoOptions :=
  {| reconnection := Some true;
     reconnectionAttempts := config_number "maxConnectionAttempts";
     reconnectionDelay := config_number "RECONNECT_DELAY";
     transports := ["websocket"] |}.

Definition initializeSocketConnection : M unit :=
  modify (set_state (set_socket (Some (mkSocket io_options "" false [])))).

(** [startPeerDiscovery], app.js:133-144. *)
Definition startPeerDiscovery : M unit :=
  modify (set_timers (fun t => t ++ [DiscoveryInterval]));;;
  socket_emit "discover" [].

(** The ['connect'] listener, app.js:88-94. *)
Definition on_socket_connect : M unit :=
  modify (set_state (fun s =>
    set_localPeerId (from_option id "" (socket s)) s));;;
  modify (set_state (set_connectionAttempts 0));;;
  updateConnectionStatus true;;;
  logMessage "Connected to signaling server" "info";;;
  startPeerDiscovery.

(** The ['disconnect'] listener, app.js:96-103. *)
Definition on_socket_disconnect (reason : string) : M unit :=
  updateConnectionStatus false;;;
  logMessage ("Disconnected: " +:+ reason) "warning";;;
  if String.eqb reason "io server disconnect" then
    modify (set_timers (fun t => t ++ [Reinitialize]))
  else ret tt.

(** The ['connect_error'] listener, app.js:105-108. *)
Definition on_socket_connect_error (message : string) : M unit :=
  modify (set_state (fun s =>
    set_connectionAttempts (S (connectionAttempts s)) s));;;
  attempts <- gets (fun w => connectionAttempts (state w));;
  logMessage ("Connection error (attempt " +:+ pretty attempts +:+ "/" +:+
              interpolate (pretty <$> config_number "maxConnectionAttempts") +:+
              "): " +:+ message) "error".

(** The socket library's side of reconnection: after [failed] attempts in a
    row it schedules one more unless the options bound them; a bound that is
    [undefined] is no bound. *)
Definition schedules_retry (o : IoOptions) (failed : nat) : bool :=
  match reconnection o with
  | Some false => false
  | _ =>
      match reconnectionAttempts o with
      | Some bound => failed <? bound
      | None => true
      end
  end.

(** [failed] connection errors in a row, each followed by the library's
    decision; the answer is whether another attempt is scheduled. *)
Fixpoint connect_errors (failed : nat) : M bool :=
  match failed with
  | 0 => ret true
  | S n =>
      _ <- connect_errors n;;
      on_socket_connect_error "websocket error";;;
      s <- gets (fun w => socket (state w));;
      ret (from_option (fun s => schedules_retry (options s) (S n)) false s)
  end.

(** *** [fetchNetworkInfo], app.js:68-77 *)

(** What [fetch('/network')] comes back with. *)
Inductive Fetch :=
| FetchRejected (message : string)
| FetchResponse (ok : bool) (body : option json).

Definition fetchNetworkInfo (f : Fetch) : M json :=
  try_catch
    (match f with
     | FetchRejected message => throw message
     | FetchResponse ok body =>
         if negb ok then throw "Network response was not ok"
         else match body with
              | Some j => ret j
              | None => throw "SyntaxError: Unexpected end of JSON input"
              end
     end)
    (fun error =>
       console_warn ("Failed to fetch network info: " +:+ error);;;
       ret (JObj [("localIp", JNull)])).

(** The relay's answer as [fetch] sees it. *)
Definition fetch_of (r : Relay.Response) : Fetch :=
  match r with
  | Relay.Json200 body => FetchResponse true (Some body)
  | Relay.Error500 _ => FetchResponse false None
  end.

(** *** The receive engine *)

(** Modelled from the spec: the listener for inbound channel messages is
    registered by [setupPeerEvents], which is not in app.js. Section 3 gives
    the receive side a map from file index to the ordered chunks received
    for it and running byte counters; section 4.3, receiver steps 1 to 4,
    gives the steps. *)
Record Receiver := mkReceiver {
  expected : option (list nat);
  advertised : nat;
  active : nat;
  buffers : gmap nat (list (list byte));
  fileReceived : nat;
  received : nat;
  completed : list (nat * list byte);
  transferComplete : bool;
  violation : option string
}.

(** Modelled from the spec: the receive state [Idle] of section 4.3, before
    any message. *)
Definition idle : Receiver :=
  mkReceiver None 0 0 ∅ 0 0 [] false None.

(** Modelled from the spec: a protocol violation (section 7) is reported
    and the session dropped; [receive] ignores what comes after it. *)
Definition violate (reason : string) (rc : Receiver) : Receiver :=
  mkReceiver (expected rc) (advertised rc) (active rc) (buffers rc)
             (fileReceived rc) (received rc) (completed rc)
             (transferComplete rc) (Some reason).

(** Modelled from the spec: the sizes and the total a metadata message
    advertises (section 6, data-channel control message). *)
Definition decode_metadata (j : json) : option (list nat * nat) :=
  match get_prop "type" j, get_prop "files" j, get_prop "totalSize" j with
  | Some (JStr t), Some (JArr items), Some (JNum total) =>
      if String.eqb t "metadata" then
        sizes ← mapM (fun d => match get_prop "size" d with
                               | Some (JNum n) => Some (Z.to_nat n)
                               | _ => None
                               end) items;
        Some (sizes, Z.to_nat total)
      else None
  | _, _, _ => None
  end.

(** Modelled from the spec: section 4.3, edge cases. A file of size 0 is
    complete with no chunk, so the engine steps over the empty files that
    start [sizes], the advertised sizes from index [index] on, and reports
    each as complete with no bytes. *)
Fixpoint settle (sizes : list nat) (index : nat)
    (done : list (nat * list byte)) : nat * list (nat * list byte) :=
  match sizes with
  | 0 :: rest => settle rest (S index) (done ++ [(index, [])])
  | _ => (index, done)
  end.

(** Modelled from the spec: one inbound message, section 4.3 receiver steps
    1 to 4 and the protocol violations of section 7. *)
Definition receive (rc : Receiver) (m : Message) : Receiver :=
  match violation rc with
  | Some _ => rc
  | None =>
      match expected rc, m with
      | None, Binary _ => violate "chunk received before metadata" rc
      | None, Text j =>
          match decode_metadata j with
          | None => violate "first message is not metadata" rc
          | Some (sizes, total) =>
              let '(index, done) := settle sizes 0 [] in
              mkReceiver (Some sizes) total index ∅ 0 0 done false None
          end
      | Some _, Text _ => violate "second control message" rc
      | Some sizes, Binary chunk =>
          match sizes !! active rc with
          | None => violate "received size exceeds advertised size" rc
          | Some advertised_size =>
              let chunks := default [] (buffers rc !! active rc) ++ [chunk] in
              let got := fileReceived rc + length chunk in
              let total := received rc + length chunk in
              if decide (advertised_size < got) then
                violate "received size exceeds advertised size" rc
              else if decide (got = advertised_size) then
                let '(index, done) :=
                  settle (drop (S (active rc)) sizes) (S (active rc))
                         (completed rc ++ [(active rc, concat chunks)]) in
                mkReceiver (Some sizes) (advertised rc) index
                           (delete (active rc) (buffers rc)) 0 total done
                           (bool_decide (total = advertised rc)) None
              else
                mkReceiver (Some sizes) (advertised rc) (active rc)
                           (<[active rc := chunks]> (buffers rc)) got total
                           (completed rc)
                           (bool_decide (total = advertised rc)) None
          end
      end
  end.

(** Modelled from the spec: the inbound messages, in the order the channel
    delivers them (section 4.2 (b)). *)
Definition receive_all (rc : Receiver) (inbound : list Message) : Receiver :=
  foldl receive rc inbound.

(** Modelled from the spec: the artifacts handed over by the file-complete
    events (section 4.3, receiver step 3), in order. *)
Definition reassembled (rc : Receiver) : list (list byte) :=
  snd <$> completed rc.

(** *** The page as an event loop *)

(** [state] as the script initialises it, app.js:2-16. *)
Definition initial_state : State :=
  mkState None None "" "" [] 0 None 0 ∅ 0 0 0 5.

Definition initial (page : Elements) (clock : Z) : World :=
  mkWorld initial_state page [] [] [] [] false clock.

(** What the page reacts to. The listeners are those above; an exception
    that leaves a listener ends that listener only. A peer object fires
    ['connect'] once, and not after it was destroyed. *)
Inductive Event :=
| ChangeSelection (picked : option (list File))
| ClickRemove (index : nat)
| PickPeer (peerId : string)
| ClickSend
| TransferTimeoutFires
| PeerConnects (r : nat)
| PeerScript (r : nat) (script : list (option string))
| PageUnloads.

Section EventLoop.

Variable formatFileSize : nat -> string.

Definition set_files (picked : option (list File)) (e : Element) : Element :=
  mkElement (textContent e) (value e) (disabled e) picked (children e).

Definition set_fileSelector (v : option Element) (e : Elements) : Elements :=
  mkElements (discoverBtn e) v (fileList e) (sendBtn e) (progressBar e)
             (progressText e) (speedText e).

Definition dispatch (w : World) (ev : Event) : World :=
  match ev with
  | ChangeSelection picked =>
      world_of
        (handleFileSelect formatFileSize
           (set_elements (fun e =>
              set_fileSelector (set_files picked <$> fileSelector e) e) w))
  | ClickRemove index => world_of (on_remove_click formatFileSize index w)
  | PickPeer peerId => set_state (set_selectedPeerId peerId) w
  | ClickSend => world_of (initiateTransfer w)
  | TransferTimeoutFires => world_of (on_transfer_timeout w)
  | PeerConnects r =>
      match peers w !! r with
      | Some p =>
          if destroyed p || connected p then w
          else world_of (on_peer_connect r
                           (set_peers (<[r := set_connected true p]>) w))
      | None => w
      end
  | PeerScript r script =>
      set_peers (fun h => from_option
                   (fun p => <[r := set_send_faults script p]> h) h (h !! r)) w
  | PageUnloads => world_of (cleanup w)
  end.

Definition run (w : World) (evs : list Event) : World := foldl dispatch w evs.

End EventLoop.

(** *** Vocabulary of the statements *)

(** The peer object [r] has not been destroyed. *)
Definition live (w : World) (r : nat) : Prop :=
  ∃ p, peers w !! r = Some p ∧ destroyed p = false.

(** Every peer connection that still exists is the one [state.peer] holds. *)
Definition one_peer (w : World) : Prop :=
  ∀ r, live w r → peer (state w) = Some r.

(** [destroy()] of the peer [state.peer] holds goes through. *)
Definition destroy_completes (w : World) : Prop :=
  ∀ r p, peer (state w) = Some r → peers w !! r = Some p →
         destroy_fault p = None.

(** What the channel of [state.peer] has accepted so far. *)
Definition outbox (w : World) : list Message :=
  from_option sent [] (peer (state w) ≫= (peers w !!.)).


(** The channel of [state.peer] is open, and no [send] on it fails. *)
Definition no_send_failure (w : World) : Prop :=
  ∃ r p, peer (state w) = Some r ∧ peers w !! r = Some p ∧
         connected p = true ∧ Forall (fun fault => fault = None) (send_faults p).

Definition is_chunk (m : Message) : Prop := ∃ c, m = Binary c.



(** [w'] has the queue, the total, the peer reference and the page of [w]. *)
Definition same_session (w w' : World) : Prop :=
  fileQueue (state w') = fileQueue (state w) ∧
  totalSize (state w') = totalSize (state w) ∧
  peer (state w') = peer (state w) ∧
  elements w' = elements w ∧
  now w' = now w.


(** From [w] to [w'] no peer object appeared, opened or closed, and only
    open channels carried anything. *)
Definition channels_kept (w w' : World) : Prop :=
  ∀ r p', peers w' !! r = Some p' →
    ∃ p, peers w !! r = Some p ∧ connected p' = connected p ∧
         destroyed p' = destroyed p ∧
         (sent p' = sent p ∨ connected p = true).

Equations? chunks (n : nat) (l : list byte) : list (list byte)
    by wf (length l) lt :=
  chunks 0 _ := [];
  chunks (S n) [] := [];
  chunks (S n) (x :: l) :=
    take (S n) (x :: l) :: chunks (S n) (drop (S n) (x :: l)).
Proof. rewrite length_drop. simpl. lia. Qed.

(** The chunks of a whole queue, file after file. *)
Definition queue_chunks (queue : list File) : list (list byte) :=
  queue ≫= (fun file => chunks CHUNK_SIZE (content file)).

(** The chunks the sender still owes at its current index and offset. *)
Definition pending (w : World) : list (list byte) :=
  match drop (currentFileIndex (state w)) (fileQueue (state w)) with
  | [] => []
  | file :: rest =>
      chunks CHUNK_SIZE (drop (currentOffset (state w)) (content file)) ++
      queue_chunks rest
  end.

(** The receiver stands at the start of file [k] of [queue]: the files
    before it were handed over, nothing is buffered, and file [k], if there
    is one, is not empty. *)
Definition at_file_start (queue : list File) (k : nat) (rc : Receiver) : Prop :=
  expected rc = Some (size <$> queue) ∧ active rc = k ∧ k ≤ length queue ∧
  buffers rc = ∅ ∧ fileReceived rc = 0 ∧ violation rc = None ∧
  completed rc = zip (seq 0 k) (content <$> take k queue) ∧
  (∀ file, queue !! k = Some file → size file ≠ 0).

(** The receiver is inside file [k], having buffered the chunks [acc]. *)
Definition in_file (queue : list File) (k : nat) (acc : list (list byte))
    (rc : Receiver) : Prop :=
  expected rc = Some (size <$> queue) ∧ active rc = k ∧
  (∀ j, j ≠ k → buffers rc !! j = None) ∧
  default [] (buffers rc !! k) = acc ∧
  fileReceived rc = length (concat acc) ∧ violation rc = None ∧
  completed rc = zip (seq 0 k) (content <$> take k queue).

(** *** Sample data for the examples *)

Definition blank : Element := mkElement "" 0 true None [].

Definition sample_page : Elements :=
  mkElements (Some blank) (Some blank) (Some blank) (Some blank)
             (Some blank) (Some blank) (Some blank).

Definition abc : File := mkFile "a.txt" "text/plain" 0 [x61; x62; x63].

Definition show_size (n : nat) : string := pretty n +:+ " Bytes".

(** A page on which a file was picked, a peer chosen and Send clicked. *)
Definition negotiating : World :=
  run show_size (initial sample_page 0)
      [ChangeSelection (Some [abc]); PickPeer "peerB"; ClickSend].


(** The same page when the first [send] on the open channel throws. *)
Definition metadata_rejected : World :=
  run show_size negotiating
      [PeerScript 0 [Some "message too large"]; PeerConnects 0].


(** The same page with the channel open and nothing sent yet. *)
Definition channel_open : World :=
  set_peers (fmap (set_connected true)) negotiating.

Definition bytes_eqb (a b : list byte) : bool :=
  (length a =? length b) &&
  forallb (fun xy => Byte.eqb (fst xy) (snd xy)) (zip a b).

(** A queue of one file of 20000 bytes on an open channel. *)
Definition big : File :=
  mkFile "a.txt" "text/plain" 0 (replicate (Z.to_nat 20000) x00).

Definition big_queued : World :=
  set_state (fun s => set_totalSize (size big) (set_fileQueue [big] s))
            channel_open.

(** The sample page when [destroy] of its peer throws. *)
Definition stubborn : World :=
  set_peers (fmap (fun p =>
    mkPeer (initiator p) (connected p) (destroyed p) (send_faults p)
           (Some "already closed") (sent p) (handlers p))) negotiating.

(** The sample page with its signaling socket created, a relay with two
    endpoints, and an offer as the peer library hands it over. *)
Definition signalling : World :=
  world_of (initializeSocketConnection negotiating).

Definition two_endpoints : Relay.Server :=
  fst (Relay.run Relay.start
         [Relay.Connection "peerA"; Relay.Connection "peerB"]).

Definition sample_offer : json :=
  JObj [("type", JStr "offer"); ("sdp", JStr "v=0")].

(** A signal whose candidate is [null]. *)
Definition empty_candidate : json :=
  JObj [("candidate", JNull)].

(** No peer object has a [destroy] that throws. *)
Definition destroyable (w : World) : Prop :=
  ∀ r p, peers w !! r = Some p → destroy_fault p = None.

(** Unfolding of the monad, for goals that run a handler on a world. *)
Ltac run_monad :=
  unfold bind, ret, throw, gets, modify, try_catch, logMessage, console_error,
    console_warn, updateConnectionStatus in *.

End Client.

(** * Properties of the relay *)

Module RelayFacts.
Import Relay.

Lemma listener_lookup name :
  assoc name listeners =
    if String.eqb "offer" name then Some on_offer
    else if String.eqb "answer" name then Some on_answer
    else if String.eqb "ice-candidate" name then Some on_ice_candidate
    else None.
Proof. reflexivity. Qed.

Lemma socket_to_emit_spec sv self room ev a :
  socket_to_emit sv self (Room room) ev a =
    if decide (room ∈ sockets sv ∧ room ≠ self) then [mkEmit room ev a] else [].
Proof.
  unfold socket_to_emit, addressed, room_members.
  destruct (decide (room ∈ sockets sv)) as [Hin|Hout].
  - destruct (decide (room = self)) as [->|Hne].
    + rewrite decide_False by tauto.
      rewrite filter_cons_False by (intros H; by apply H). done.
    + rewrite decide_True by tauto.
      rewrite filter_cons_True by done. done.
  - rewrite decide_False by tauto. done.
Qed.

Lemma room_members_elem sv room x :
  x ∈ room_members sv room ↔ x = room ∧ x ∈ sockets sv.
Proof.
  unfold room_members. destruct (decide (room ∈ sockets sv)) as [Hin|Hout].
  - rewrite list_elem_of_singleton. split; [by intros ->|tauto].
  - split; [by intros ?%elem_of_nil|by intros [-> ?]].
Qed.

Lemma first_occurrences_elem l x : x ∈ first_occurrences l ↔ x ∈ l.
Proof.
  unfold first_occurrences.
  by rewrite elem_of_reverse, elem_of_remove_dups, elem_of_reverse.
Qed.

Lemma first_occurrences_NoDup l : NoDup (first_occurrences l).
Proof.
  unfold first_occurrences. rewrite reverse_Permutation.
  apply NoDup_remove_dups.
Qed.

Lemma rooms_elem sv (l : list EndpointId) x :
  x ∈ l ≫= room_members sv ↔ x ∈ sockets sv ∧ x ∈ l.
Proof.
  rewrite list_elem_of_bind. split.
  - intros (y & [-> Hin]%room_members_elem & Hy). done.
  - intros [Hin Hx]. exists x. by rewrite room_members_elem.
Qed.

Lemma rooms_NoDup sv (l : list EndpointId) :
  NoDup l → NoDup (l ≫= room_members sv).
Proof.
  induction 1 as [|y l Hy Hl IH]; [constructor|].
  change ((y :: l) ≫= room_members sv)
    with (room_members sv y ++ (l ≫= room_members sv)).
  apply NoDup_app. split_and!; [|intros x|done].
  - unfold room_members. case_decide; [apply NoDup_singleton|constructor].
  - intros [-> _]%room_members_elem [_ ?]%rooms_elem. done.
Qed.

(** The addressed sockets are the connected ones the target names. *)
Lemma addressed_elem sv target x :
  x ∈ addressed sv target ↔ x ∈ sockets sv ∧ names target x.
Proof.
  destruct target as [room|[|item rooms]|]; cbn [addressed names].
  - rewrite room_members_elem. tauto.
  - tauto.
  - rewrite rooms_elem, first_occurrences_elem, list_elem_of_omap.
    split.
    + intros [? (y & Hy & ->)]. done.
    + intros [? ?]. split; [done|]. by exists (Some x).
  - split; [by intros ?%elem_of_nil|tauto].
Qed.

Lemma addressed_NoDup sv target :
  NoDup (sockets sv) → NoDup (addressed sv target).
Proof.
  intros Hsv. destruct target as [room|[|item rooms]|]; cbn [addressed].
  - unfold room_members. case_decide; [apply NoDup_singleton|constructor].
  - done.
  - apply rooms_NoDup, first_occurrences_NoDup.
  - constructor.
Qed.

Lemma socket_to_emit_elem sv self target ev a e :
  e ∈ socket_to_emit sv self target ev a ↔
    e = mkEmit (recipient e) ev a ∧
    recipient e ∈ sockets sv ∧ recipient e ≠ self ∧ names target (recipient e).
Proof.
  unfold socket_to_emit. rewrite list_elem_of_fmap. split.
  - intros (x & -> & [Hne Hx%addressed_elem]%list_elem_of_filter). tauto.
  - intros (He & Hin & Hne & Hnames). exists (recipient e).
    split; [done|]. apply list_elem_of_filter. split; [done|].
    by apply addressed_elem.
Qed.

Lemma socket_to_emit_recipients sv self target ev a :
  recipient <$> socket_to_emit sv self target ev a =
    filter (fun r => r ≠ self) (addressed sv target).
Proof.
  unfold socket_to_emit. rewrite <- list_fmap_compose.
  induction (filter _ _) as [|x l IH]; [done|]. simpl. by f_equal.
Qed.

(** What a packet produces: the broadcast of the listener registered under
    its name, if there is one. *)
Lemma packet_out sv self name payload target :
  ∃ rest,
    snd (step sv (Packet self name payload target)) =
      if bool_decide (name ∈ ["offer"; "answer"; "ice-candidate"])
      then socket_to_emit sv self target name (payload :: rest)
      else [].
Proof.
  unfold step. rewrite listener_lookup. cbn [snd].
  destruct (String.eqb_spec "offer" name) as [<-|H1];
    [|destruct (String.eqb_spec "answer" name) as [<-|H2];
      [|destruct (String.eqb_spec "ice-candidate" name) as [<-|H3]]];
    cbv beta iota.
  - exists [JStr self]. by rewrite bool_decide_eq_true_2 by (repeat constructor).
  - exists []. by rewrite bool_decide_eq_true_2 by (repeat constructor).
  - exists []. by rewrite bool_decide_eq_true_2 by (repeat constructor).
  - exists []. rewrite bool_decide_eq_false_2; [done|].
    rewrite !elem_of_cons, elem_of_nil. naive_solver.
Qed.

(** C3. An [offer] packet from the socket [sourceId] leaves the relay
    untouched and produces, when [targetId] is another connected socket,
    exactly one message: the event [offer] for [targetId] with the payload
    as received and [sourceId], the id the relay holds for the sending
    socket, as second argument. Otherwise nothing is produced. No argument
    of the packet can stand in for the identity: whatever the packet gives
    as its target (one id, an array, anything else), each message produced
    is the event [offer] with that payload and [sourceId]. *)
Theorem offer_carries_relay_identity
    (sv : Server) (sourceId targetId : EndpointId) (payload : json) :
  step sv (Packet sourceId "offer" payload (Room targetId)) =
    (sv, if decide (targetId ∈ sockets sv ∧ targetId ≠ sourceId)
         then [mkEmit targetId "offer" [payload; JStr sourceId]]
         else []) ∧
  ∀ (target : Target) (e : Emit),
    e ∈ snd (step sv (Packet sourceId "offer" payload target)) →
    event e = "offer" ∧ args e = [payload; JStr sourceId].
Proof.
  split.
  - unfold step. rewrite listener_lookup. simpl.
    unfold on_offer. by rewrite socket_to_emit_spec.
  - intros target e. unfold step. rewrite listener_lookup. simpl.
    unfold on_offer. intros (He & _)%socket_to_emit_elem. by rewrite He.
Qed.

(** The scenario of the specification: peerA offers to peerB. *)
Example offer_peerA_to_peerB (payload : json) :
  snd (run start [Connection "peerA"; Connection "peerB";
                  Packet "peerA" "offer" payload (Room "peerB")]) =
    [mkEmit "peerB" "offer" [payload; JStr "peerA"]].
Proof. reflexivity. Qed.

(** C5. The relay registers no listener for [discover]: such a packet
    changes nothing and is answered with nothing, whatever it carries. With
    peerA and peerB connected, peerA's [discover] gets no reply, while the
    timer of peerA does push the list holding peerB. *)
Theorem discover_is_not_answered :
  (∀ (sv : Server) (self : EndpointId) (payload : json) (target : Target),
      step sv (Packet self "discover" payload target) = (sv, [])) ∧
  let sv := fst (run start [Connection "peerA"; Connection "peerB"]) in
  snd (step sv (Packet "peerA" "discover" JNull NoRoom)) = [] ∧
  snd (step sv (Tick "peerA")) = [mkEmit "peerA" "peers" [JArr [JStr "peerB"]]].
Proof. split; [reflexivity | split; reflexivity]. Qed.

(** C7, as stated, fails: when the lookup throws, the answer is an error
    response, and when the lookup returns nothing, the answer has no
    [localIp] at all. *)
Lemma lookup_failure_is_an_error_response :
  ¬ answers_null_on_failure (mkEnv (IpThrows "EACCES") None None) ∧
  ¬ answers_null_on_failure (mkEnv (IpReturns None) None None).
Proof. split; intros [localIp [H _]]; discriminate H. Qed.

End RelayFacts.

(** * Properties of the client *)

Module ClientFacts.
Import Client.

(** ** [sendData] *)

(** C9. [sendData] always returns, with a boolean and never an exception.
    It returns [true] exactly when [state.peer] is set and connected and the
    call of [send] went through, the world then being the one that call
    left; it returns [false] exactly when the peer is absent, or not
    connected, or [send] threw. *)
Theorem sendData_total (data : Message) (w : World) :
  ∃ (b : bool) (w' : World),
    sendData data w = Ok b w' ∧
    (b = true ↔
       ∃ r, peer (state w) = Some r ∧ peer_connected w r = true ∧
            peer_send r data w = Ok tt w') ∧
    (b = false ↔
       peer (state w) = None ∨
       ∃ r, peer (state w) = Some r ∧
            (peer_connected w r = false ∨
             ∃ e w1, peer_send r data w = Throw e w1)).
Proof.
  unfold sendData. run_monad.
  destruct (peer (state w)) as [r|] eqn:Hr; simpl.
  - destruct (peer_connected w r) eqn:Hup; simpl.
    + destruct (peer_send r data w) as [[] w1|e w1] eqn:Hsend.
      * exists true, w1. split; [reflexivity|]. split.
        -- split; [intros _; exists r; auto | auto].
        -- split; [discriminate|].
           intros [H|(r' & H & [H'|(e & w2 & H')])];
             [discriminate H | injection H as <-; congruence ..].
      * eexists false, _. split; [reflexivity|]. split.
        -- split; [discriminate|].
           intros (r' & H & _ & H'). injection H as <-. congruence.
        -- split; [|auto]. intros _. right. exists r. eauto.
    + eexists false, _. split; [reflexivity|]. split.
      * split; [discriminate|].
        intros (r' & H & H' & _). injection H as <-. congruence.
      * split; [|auto]. intros _. right. exists r. eauto.
  - eexists false, _. split; [reflexivity|]. split.
    + split; [discriminate|]. intros (r' & H & _). discriminate H.
    + split; [|auto]. intros _. by left.
Qed.

(** ** [cleanup] *)

(** C8. Once [cleanup] has run to its end, running it again raises nothing
    and leaves the world exactly as the first run left it. *)
Theorem cleanup_idempotent (w w' : World) :
  cleanup w = Ok tt w' → cleanup w' = Ok tt w'.
Proof.
  destruct w as [[sk pr lp sp' fq ix cf off rb rs ts ca mx]
                 [d fs fl sb pb pt sp] ps tm lg cs on nw].
  unfold cleanup, assign, peer_destroy. run_monad. simpl.
  destruct pr as [r|]; simpl.
  - destruct (ps !! r) as [p|]; simpl; [destruct (destroy_fault p); simpl|];
      destruct d, pb, pt, sp; simpl; intros H; simplify_eq; reflexivity.
  - destruct d, pb, pt, sp; simpl; intros H; simplify_eq; reflexivity.
Qed.

(** The world of C8's example: a negotiation is under way, then torn down. *)
Lemma cleanup_idempotent_witness :
  cleanup negotiating = Ok tt (world_of (cleanup negotiating)) ∧
  cleanup (world_of (cleanup negotiating)) =
    Ok tt (world_of (cleanup negotiating)).
Proof.
  split; [vm_compute; reflexivity|].
  apply (cleanup_idempotent negotiating). vm_compute; reflexivity.
Defined.

(** ** One peer connection at a time *)

Lemma peer_on_last (w : World) (h : list Peer) (x : Peer) (ev : string) :
  peers w = h ++ [x] →
  peer_on (length h) ev w =
    Ok tt (set_peers (fun _ => h ++ [set_handlers (handlers x ++ [ev]) x]) w).
Proof.
  intros Hw. unfold peer_on. rewrite Hw.
  rewrite list_lookup_middle by done.
  unfold set_peers. rewrite Hw. do 2 f_equal.
  replace (length h) with (length h + 0) at 1 by lia.
  by rewrite insert_app_r.
Qed.

(** What the second half of [initiateTransfer] does on a heap [h] once
    [state.peer] is free: one fresh object at the end of the heap, held by
    [state.peer]. *)
Lemma create_after_destroy (w : World) :
  let fresh := mkPeer true false false [] None []
                      ["data"; "close"; "error"; "connect"; "signal"] in
  let final h lg :=
    mkWorld (set_peer (Some (length h)) (state w)) (elements w) (h ++ [fresh])
            (timers w ++ [TransferTimeout (length h)]) lg (console w)
            (online w) (now w) in
  let lg := log w ++ [("Initiating transfer...", "info")] in
  initiateTransfer w =
    if String.eqb (selectedPeerId (state w)) "" ||
       Nat.eqb (length (fileQueue (state w))) 0
    then Ok tt (set_log (fun l => l ++
                  [("Please select a peer and files first", "error")]) w)
    else match peer (state w) with
         | None => Ok tt (final (peers w) lg)
         | Some old =>
             match peers w !! old with
             | None => Throw "TypeError: destroy is not a function"
                             (set_log (fun _ => lg) w)
             | Some p =>
                 match destroy_fault p with
                 | Some message => Throw message (set_log (fun _ => lg) w)
                 | None =>
                     Ok tt (final (<[old := set_destroyed true
                                              (set_connected false p)]> (peers w)) lg)
                 end
             end
         end.
Proof.
  intros fresh final lg. unfold initiateTransfer. run_monad. simpl.
  destruct (_ || _); [reflexivity|].
  destruct w as [st el ps tm lgs cs on nw]. simpl in *.
  destruct (peer st) as [old|] eqn:Hp; simpl.
  - unfold peer_destroy. simpl.
    destruct (ps !! old) as [p|] eqn:Hold; simpl; [|reflexivity].
    destruct (destroy_fault p); simpl; [reflexivity|].
    unfold new_SimplePeer, setupPeerEvents. run_monad. simpl.
    set (h := <[old := _]> ps).
    repeat (erewrite (peer_on_last _ h) by reflexivity; simpl).
    reflexivity.
  - unfold new_SimplePeer, setupPeerEvents. run_monad. simpl.
    repeat (erewrite (peer_on_last _ ps) by reflexivity; simpl).
    reflexivity.
Qed.

(** The heap and the reference that [cleanup] leaves, wherever it stops. *)
Lemma cleanup_peers (w : World) :
  peer (state (world_of (cleanup w))) = None ∧
  peers (world_of (cleanup w)) =
    match peer (state w) with
    | Some r =>
        match peers w !! r with
        | Some p =>
            match destroy_fault p with
            | None => <[r := set_destroyed true (set_connected false p)]> (peers w)
            | Some _ => peers w
            end
        | None => peers w
        end
    | None => peers w
    end.
Proof.
  destruct w as [[sk pr lp sp' fq ix cf off rb rs ts ca mx]
                 [d fs fl sb pb pt sp] ps tm lg cs on nw].
  unfold cleanup, assign, peer_destroy. run_monad. simpl.
  destruct pr as [r|]; simpl.
  - destruct (ps !! r) as [p|]; simpl; [destruct (destroy_fault p); simpl|];
      destruct d, pb, pt, sp; simpl; split; reflexivity.
  - destruct d, pb, pt, sp; simpl; split; reflexivity.
Qed.

(** C10. If every peer connection still alive is the one [state.peer]
    holds, this stays so after [initiateTransfer], however it ends, and
    [cleanup] leaves [state.peer] null, however it ends. When moreover the
    [destroy] of the peer that [state.peer] holds, if any, goes through,
    then [cleanup] leaves no peer connection alive, and [initiateTransfer],
    with a peer selected and files queued, returns normally, having
    destroyed every peer object there was and holding in [state.peer] one
    new object, which is alive. *)
Theorem one_peer_at_a_time (w : World) :
  one_peer w →
  one_peer (world_of (initiateTransfer w)) ∧
  peer (state (world_of (cleanup w))) = None ∧
  ((∀ old, peer (state w) = Some old →
           ∃ p, peers w !! old = Some p ∧ destroy_fault p = None) →
   (∀ r, ¬ live (world_of (cleanup w)) r) ∧
   (selectedPeerId (state w) ≠ "" → fileQueue (state w) ≠ [] →
    ∃ w', initiateTransfer w = Ok tt w' ∧
          peer (state w') = Some (length (peers w)) ∧
          live w' (length (peers w)) ∧
          ∀ r, r < length (peers w) → ¬ live w' r)).
Proof.
  intros Hone. split; [|split].
  - rewrite create_after_destroy.
    destruct (_ || _); [exact Hone|].
    destruct (peer (state w)) as [old|] eqn:Hold.
    + destruct (peers w !! old) as [p|] eqn:Hp; [|exact Hone].
      destruct (destroy_fault p); [exact Hone|].
      intros r (q & Hq & Hlive). simpl in *.
      apply lookup_snoc_Some in Hq as [[Hlt Hq]|[-> _]]; [|done].
      rewrite length_insert in Hlt. exfalso.
      destruct (decide (r = old)) as [->|Hne].
      * rewrite list_lookup_insert_eq in Hq by by eapply lookup_lt_Some.
        by simplify_eq.
      * rewrite list_lookup_insert_ne in Hq by done.
        assert (peer (state w) = Some r) by (apply Hone; by exists q).
        congruence.
    + intros r (q & Hq & Hlive). simpl in *.
      apply lookup_snoc_Some in Hq as [[Hlt Hq]|[-> _]]; [|done].
      assert (peer (state w) = Some r) by (apply Hone; by exists q).
      congruence.
  - apply cleanup_peers.
  - intros Hready. split.
    + intros r (q & Hq & Hlive).
      destruct (cleanup_peers w) as [_ Hheap]. rewrite Hheap in Hq. clear Hheap.
      destruct (peer (state w)) as [old|] eqn:Hold.
      * destruct (Hready old eq_refl) as (p & Hp & Hfault).
        rewrite Hp, Hfault in Hq.
        destruct (decide (r = old)) as [->|Hne].
        -- rewrite list_lookup_insert_eq in Hq by by eapply lookup_lt_Some.
           by simplify_eq.
        -- rewrite list_lookup_insert_ne in Hq by done.
           assert (peer (state w) = Some r) by (apply Hone; by exists q).
           congruence.
      * assert (peer (state w) = Some r) by (apply Hone; by exists q).
        congruence.
    + intros Hsel Hqueue. rewrite create_after_destroy.
      destruct (String.eqb_spec (selectedPeerId (state w)) ""); [done|].
      destruct (fileQueue (state w)); [done|]. simpl.
      destruct (peer (state w)) as [old|] eqn:Hold.
      * destruct (Hready old eq_refl) as (p & Hp & Hfault).
        rewrite Hp, Hfault. rewrite length_insert.
        assert (old < length (peers w)) by by eapply lookup_lt_Some.
        eexists. split; [reflexivity|]. simpl. split; [reflexivity|]. split.
        -- eexists. simpl.
           split; [apply list_lookup_middle; by rewrite length_insert
                  |reflexivity].
        -- intros r Hlt (q & Hq & Hlive). simpl in Hq.
           rewrite lookup_app_l in Hq by by rewrite length_insert.
           destruct (decide (r = old)) as [->|Hne].
           ++ rewrite list_lookup_insert_eq in Hq by done. by simplify_eq.
           ++ rewrite list_lookup_insert_ne in Hq by done.
              assert (peer (state w) = Some r) by (apply Hone; by exists q).
              congruence.
      * eexists. split; [reflexivity|]. simpl. split; [reflexivity|]. split.
        -- eexists. simpl. split; [by apply list_lookup_middle|reflexivity].
        -- intros r Hlt (q & Hq & Hlive). simpl in Hq.
           rewrite lookup_app_l in Hq by done.
           assert (peer (state w) = Some r) by (apply Hone; by exists q).
           congruence.
Qed.

(** A negotiation is under way, its peer object being the first of the
    page. Send is clicked again: that object is destroyed and [state.peer]
    holds a second one, alive. Or the page is torn down: no object is left
    alive. *)
Lemma one_peer_at_a_time_witness :
  one_peer negotiating ∧
  peer (state negotiating) = Some 0 ∧ live negotiating 0 ∧
  one_peer (world_of (initiateTransfer negotiating)) ∧
  peer (state (world_of (cleanup negotiating))) = None ∧
  ¬ live (world_of (cleanup negotiating)) 0 ∧
  ∃ w', initiateTransfer negotiating = Ok tt w' ∧
        peer (state w') = Some 1 ∧ live w' 1 ∧ ¬ live w' 0.
Proof.
  assert (Hone : one_peer negotiating).
  { intros r (q & Hq & _). destruct r as [|r]; [reflexivity|].
    vm_compute in Hq. destruct r; discriminate Hq. }
  split; [exact Hone|]. split; [reflexivity|].
  split; [eexists; split; reflexivity|].
  destruct (one_peer_at_a_time negotiating Hone) as (H1 & H2 & H3).
  split; [exact H1|]. split; [exact H2|].
  destruct H3 as [H3 H4].
  { intros old [= <-]. eexists. split; reflexivity. }
  split; [apply H3|].
  destruct H4 as (w' & Hrun & Hpeer & Hlive & Hdead);
    [discriminate | discriminate |].
  exists w'. split; [exact Hrun|]. split; [exact Hpeer|].
  split; [exact Hlive|]. apply Hdead. repeat constructor.
Defined.

(** ** Reconnection to the relay *)

Lemma connect_errors_unbounded (failed : nat) (w : World) (s : Socket) :
  socket (state w) = Some s → options s = io_options →
  ∃ w', connect_errors failed w = Ok true w' ∧
        socket (state w') = Some s ∧
        connectionAttempts (state w') = connectionAttempts (state w) + failed.
Proof.
  intros Hs Ho. induction failed as [|n (w1 & Hrun & Hs1 & Hn)]; simpl.
  - exists w. unfold ret. rewrite Nat.add_0_r. done.
  - unfold on_socket_connect_error. run_monad. rewrite Hrun. simpl.
    rewrite Hs1. simpl. rewrite Ho.
    eexists. split; [reflexivity|]. simpl. split; [done|]. lia.
Qed.

(** C6. The options handed to the socket library carry the 3000 ms delay but
    no bound on the attempts: the bound is read from [config], which has no
    such property, while the 5 sits in [state.maxConnectionAttempts], which
    nothing reads. So after any number of connection errors in a row the
    library schedules one more attempt, and the counter of the client just
    grows: after six errors it holds 6 and a seventh attempt is due. *)
Theorem reconnection_is_unbounded :
  reconnectionAttempts io_options = None ∧
  reconnectionDelay io_options = Some 3000 ∧
  maxConnectionAttempts initial_state = 5 ∧
  (∀ (w : World) (failed : nat),
      ∃ w', connect_errors failed (world_of (initializeSocketConnection w)) =
              Ok true w' ∧
            connectionAttempts (state w') = connectionAttempts (state w) + failed) ∧
  (∃ w', connect_errors 6
           (world_of (initializeSocketConnection (initial sample_page 0))) =
           Ok true w' ∧
         connectionAttempts (state w') = 6).
Proof.
  split; [reflexivity|]. split; [reflexivity|]. split; [reflexivity|].
  assert (Hall : ∀ (w : World) (failed : nat),
      ∃ w', connect_errors failed (world_of (initializeSocketConnection w)) =
              Ok true w' ∧
            connectionAttempts (state w') = connectionAttempts (state w) + failed).
  { intros w failed.
    destruct (connect_errors_unbounded failed
                (world_of (initializeSocketConnection w))
                (mkSocket io_options "" false []))
      as (w' & Hrun & _ & Hn); [reflexivity..|].
    exists w'. split; [exact Hrun|]. exact Hn. }
  split; [exact Hall|].
  destruct (Hall (initial sample_page 0) 6) as (w' & Hrun & Hn).
  exists w'. split; [exact Hrun|]. exact Hn.
Qed.

(** ** Network information *)

(** C7, amended. The handler answers with the two-field object when the
    lookup returns an address, with the object lacking [localIp] when the
    lookup returns nothing, and with an error response when the lookup
    throws. The [null] is the client's: [fetchNetworkInfo] never raises,
    gives the body of an ok response as it is, and gives
    [{ localIp: null }] for everything else, an error response of the
    handler included. *)
Theorem null_address_is_the_clients_fallback (env : Relay.Env) (f : Fetch)
    (w : World) :
  match Relay.ip_address env with
  | Relay.IpReturns (Some a) =>
      Relay.get_network env =
        Relay.Json200 (JObj [ ("localIp", JStr a);
                              ("publicUrl", JStr (Relay.publicUrl env)) ])
  | Relay.IpReturns None =>
      Relay.get_network env =
        Relay.Json200 (JObj [ ("publicUrl", JStr (Relay.publicUrl env)) ])
  | Relay.IpThrows message =>
      Relay.get_network env = Relay.Error500 message ∧
      ∃ w', fetchNetworkInfo (fetch_of (Relay.get_network env)) w =
              Ok (JObj [("localIp", JNull)]) w'
  end ∧
  ∃ j w', fetchNetworkInfo f w = Ok j w' ∧
          j = match f with
              | FetchResponse true (Some body) => body
              | _ => JObj [("localIp", JNull)]
              end.
Proof.
  split.
  - unfold Relay.get_network.
    destruct (Relay.ip_address env) as [[a|]|message]; [reflexivity..|].
    split; [reflexivity|]. eexists. reflexivity.
  - destruct f as [message|[] [body|]]; eexists _, _; split; reflexivity.
Qed.

(** ** The messages of a session *)

Lemma same_session_refl (w : World) : same_session w w.
Proof. by repeat split. Qed.

Lemma same_session_trans (w1 w2 w3 : World) :
  same_session w1 w2 → same_session w2 w3 → same_session w1 w3.
Proof. unfold same_session. intros (?&?&?&?&?) (?&?&?&?&?). repeat split; congruence. Qed.

Lemma outbox_eq (w : World) (r : nat) (p : Peer) :
  peer (state w) = Some r → peers w !! r = Some p → outbox w = sent p.
Proof. intros Hr Hp. unfold outbox. rewrite Hr. simpl. by rewrite Hp. Qed.

(** [sendData] either puts [data] at the end of the outbox or leaves the
    outbox alone; it touches nothing else that the session reads. *)
Lemma sendData_effect (data : Message) (w : World) :
  ∃ b w', sendData data w = Ok b w' ∧ same_session w w' ∧
          state w' = state w ∧
          outbox w' = outbox w ++ (if b then [data] else []).
Proof.
  unfold sendData. run_monad.
  destruct (peer (state w)) as [r|] eqn:Hr; simpl.
  - unfold peer_connected, peer_send.
    destruct (peers w !! r) as [p|] eqn:Hp; simpl.
    + assert (Hlt : r < length (peers w)) by by eapply lookup_lt_Some.
      destruct (connected p) eqn:Hc; simpl; rewrite ?Hp; simpl.
      * destruct (head (send_faults p)) as [[m|]|]; simpl;
          eexists _, _; (split; [reflexivity|]);
          (split; [by repeat split|]); (split; [reflexivity|]);
          unfold outbox; simpl; rewrite Hr; simpl;
          rewrite list_lookup_insert_eq by done; rewrite Hp; simpl;
          by rewrite ?app_nil_r.
      * eexists _, _. split; [reflexivity|]. split; [by repeat split|].
        split; [reflexivity|]. unfold outbox. simpl. by rewrite app_nil_r.
    + eexists _, _. split; [reflexivity|]. split; [by repeat split|].
      split; [reflexivity|]. unfold outbox. simpl. by rewrite app_nil_r.
  - eexists _, _. split; [reflexivity|]. split; [by repeat split|].
    split; [reflexivity|]. unfold outbox. simpl. by rewrite app_nil_r.
Qed.



(** The loop sends chunks and nothing else, whatever the channel does. *)
Lemma loop_sends_chunks (fuel : nat) (w : World) :
  ∃ rest, same_session w (world_of (sendNextFile_loop fuel w)) ∧
          outbox (world_of (sendNextFile_loop fuel w)) = outbox w ++ rest ∧
          Forall is_chunk rest.
Proof.
  revert w. induction fuel as [|fuel IH]; intros w; simpl.
  - exists []. split; [apply same_session_refl|]. by rewrite app_nil_r.
  - run_monad.
    destruct (fileQueue (state w) !! currentFileIndex (state w)) as [file|]; simpl.
    2:{ exists []. split; [apply same_session_refl|]. by rewrite app_nil_r. }
    destruct (decide _) as [Hend|Hmore]; simpl.
    + match goal with |- context [sendNextFile_loop fuel ?w1] =>
        destruct (IH w1) as (rest & Hs & Hout & Hall) end.
      exists rest. split; [|split; [|done]].
      * eapply same_session_trans; [|exact Hs]. by repeat split.
      * rewrite Hout. done.
    + destruct (sendData_effect
                  (Binary (slice file (currentOffset (state w))
                                 (currentOffset (state w) + CHUNK_SIZE))) w)
        as (b & w1 & -> & Hs1 & Hst & Hout1).
      destruct b; simpl.
      * match goal with |- context [sendNextFile_loop fuel ?w2] =>
          destruct (IH w2) as (rest & Hs & Hout & Hall) end.
        eexists (_ :: rest). split; [|split].
        -- eapply same_session_trans; [|exact Hs].
           eapply same_session_trans; [exact Hs1|]. by repeat split.
        -- rewrite Hout.
           change (outbox (set_state ?f w1)) with
             (from_option sent [] (peer (f (state w1)) ≫= (peers w1 !!.))).
           simpl. fold (outbox w1). rewrite Hout1. by rewrite <- app_assoc.
        -- constructor; [by eexists | done].
      * exists []. split; [|split; [|done]].
        -- eapply same_session_trans; [exact Hs1|]. by repeat split.
        -- simpl. rewrite app_nil_r.
           change (outbox (set_log ?f w1)) with (outbox w1).
           rewrite Hout1. by rewrite app_nil_r.
Qed.

Lemma startFileTransfer_session (w : World) :
  ∃ sent_ok w1 rest,
    sendData (Text (metadata (fileQueue (state w)) (totalSize (state w)) (now w)))
             (set_state (fun s => set_receivedSize 0 (set_currentOffset 0
                                    (set_currentFileIndex 0 s))) w) =
      Ok sent_ok w1 ∧
    same_session w (world_of (startFileTransfer w)) ∧
    outbox (world_of (startFileTransfer w)) =
      outbox w ++
      (if sent_ok
       then [Text (metadata (fileQueue (state w)) (totalSize (state w)) (now w))]
       else []) ++ rest ∧
    Forall is_chunk rest.
Proof.
  unfold startFileTransfer, startFileTransfer_with, bind, modify, gets.
  set (w0 := set_state _ w).
  change (fileQueue (state w)) with (fileQueue (state w0)).
  change (totalSize (state w)) with (totalSize (state w0)).
  change (now w) with (now w0).
  change (outbox w) with (outbox w0).
  destruct (sendData_effect
              (Text (metadata (fileQueue (state w0)) (totalSize (state w0)) (now w0)))
              w0) as (b & w1 & Hsend & Hs1 & Hst & Hout1).
  rewrite Hsend. unfold sendNextFile.
  destruct (loop_sends_chunks (S (remaining w1)) w1) as (rest & Hs & Hout & Hall).
  exists b, w1, rest. split; [done|]. split; [|split; [|done]].
  - eapply same_session_trans; [|exact Hs].
    eapply same_session_trans; [|exact Hs1]. by repeat split.
  - rewrite Hout, Hout1. by rewrite <- app_assoc.
Qed.

(** ** A failed send *)

(** C4. [startFileTransfer] hands over to the sending loop whatever
    [sendData] returned for the metadata message. On a page where the
    channel is open and the first [send] throws, the failure is logged and
    the file's chunk is sent all the same: the channel has accepted a chunk
    and no metadata. *)
Theorem failed_metadata_send_does_not_halt :
  (∀ (next : M unit) (w : World),
      let w0 := set_state (fun s =>
                  set_receivedSize 0 (set_currentOffset 0
                    (set_currentFileIndex 0 s))) w in
      startFileTransfer_with next w =
        next (world_of (sendData
                (Text (metadata (fileQueue (state w0)) (totalSize (state w0))
                                (now w0))) w0))) ∧
  outbox metadata_rejected = [Binary (content abc)] ∧
  log metadata_rejected =
    [ ("Selected 1 files (3 Bytes)", "info");
      ("Initiating transfer...", "info");
      ("Peer connection established!", "success");
      ("Failed to send data: message too large", "error") ].
Proof.
  split; [|split; vm_compute; reflexivity].
  intros next w w0. unfold startFileTransfer_with, bind, modify, gets.
  fold w0.
  destruct (sendData_effect
              (Text (metadata (fileQueue (state w0)) (totalSize (state w0)) (now w0)))
              w0) as (b & w1 & -> & _).
  reflexivity.
Qed.

(** ** The queue and its total on a running page *)

Lemma foldl_sizes (queue : list File) (start : nat) :
  foldl (fun sum file => sum + size file) start queue =
    start + sum_list (size <$> queue).
Proof.
  revert start. induction queue as [|f queue IH]; intros start; csimpl; [lia|].
  rewrite IH. lia.
Qed.







(** ** Channels that never opened *)

Lemma channels_kept_peers (w w' : World) :
  peers w' = peers w → channels_kept w w'.
Proof. intros Heq r p' Hp'. rewrite Heq in Hp'. exists p'. auto. Qed.

Lemma channels_kept_trans (w1 w2 w3 : World) :
  channels_kept w1 w2 → channels_kept w2 w3 → channels_kept w1 w3.
Proof.
  intros H12 H23 r p3 Hp3.
  destruct (H23 r p3 Hp3) as (p2 & Hp2 & Hc2 & Hd2 & Hs2).
  destruct (H12 r p2 Hp2) as (p1 & Hp1 & Hc1 & Hd1 & Hs1).
  exists p1. repeat split; [done|congruence..|].
  destruct Hs2 as [Hs2|Hs2]; [|right; congruence].
  destruct Hs1 as [Hs1|Hs1]; [left; congruence|by right].
Qed.


Lemma channels_kept_insert (w : World) (r : nat) (p q : Peer) :
  peers w !! r = Some p →
  connected q = connected p → destroyed q = destroyed p →
  sent q = sent p ∨ connected p = true →
  channels_kept w (set_peers (<[r := q]>) w).
Proof.
  intros Hp Hc Hd Hs r' p' Hp'. simpl in Hp'.
  destruct (decide (r' = r)) as [->|Hne].
  - rewrite list_lookup_insert_eq in Hp' by by eapply lookup_lt_Some.
    injection Hp' as <-. by exists p.
  - rewrite list_lookup_insert_ne in Hp' by done. exists p'. auto.
Qed.

Lemma sendData_channels (data : Message) (w : World) :
  channels_kept w (world_of (sendData data w)).
Proof.
  unfold sendData. run_monad.
  destruct (peer (state w)) as [r|] eqn:Hr; simpl; [|by apply channels_kept_peers].
  unfold peer_connected, peer_send.
  destruct (peers w !! r) as [p|] eqn:Hp; simpl; [|by apply channels_kept_peers].
  destruct (connected p) eqn:Hc; simpl; rewrite ?Hp; simpl;
    [|by apply channels_kept_peers].
  destruct (head (send_faults p)) as [[m|]|]; simpl.
  - eapply channels_kept_trans; [|by apply channels_kept_peers].
    apply (channels_kept_insert w r p (set_send_faults (tail (send_faults p)) p));
      auto.
  - eapply (channels_kept_insert w r p); eauto.
  - eapply (channels_kept_insert w r p); eauto.
Qed.

Lemma loop_channels (fuel : nat) (w : World) :
  channels_kept w (world_of (sendNextFile_loop fuel w)).
Proof.
  revert w. induction fuel as [|fuel IH]; intros w; simpl;
    [by apply channels_kept_peers|].
  run_monad.
  destruct (fileQueue (state w) !! currentFileIndex (state w)) as [file|]; simpl;
    [|by apply channels_kept_peers].
  destruct (decide _) as [Hend|Hmore]; simpl.
  - eapply channels_kept_trans; [|apply IH]. by apply channels_kept_peers.
  - pose proof (sendData_channels
                  (Binary (slice file (currentOffset (state w))
                                 (currentOffset (state w) + CHUNK_SIZE))) w) as Hk.
    destruct (sendData _ w) as [[] w1|e w1]; simpl in *.
    + eapply channels_kept_trans; [exact Hk|].
      eapply channels_kept_trans; [|apply IH]. by apply channels_kept_peers.
    + eapply channels_kept_trans; [exact Hk|]. by apply channels_kept_peers.
    + exact Hk.
Qed.

Lemma startFileTransfer_channels (w : World) :
  channels_kept w (world_of (startFileTransfer w)).
Proof.
  unfold startFileTransfer, startFileTransfer_with, bind, modify, gets.
  set (w0 := set_state _ w). set (m := Text _).
  pose proof (sendData_channels m w0) as Hk.
  destruct (sendData m w0) as [b w1|e w1]; simpl in *.
  - eapply channels_kept_trans; [|apply loop_channels].
    eapply channels_kept_trans; [|exact Hk]. by apply channels_kept_peers.
  - eapply channels_kept_trans; [|exact Hk]. by apply channels_kept_peers.
Qed.

Lemma handleFileSelect_peers (fmt : nat → string) (w : World) :
  peers (world_of (handleFileSelect fmt w)) = peers w.
Proof.
  destruct w as [st [d fs fl sb pb pt sp] ps tm lg cs on nw].
  unfold handleFileSelect, assign. run_monad. simpl.
  destruct fs as [sel|]; simpl; [|done].
  destruct fl as [lst|]; simpl; [|done].
  destruct (files sel) as [[|first others]|]; simpl; [done| |done].
  destruct sb; reflexivity.
Qed.






(** ** The metadata message *)




(** ** Chunking *)

Lemma CHUNK_SIZE_pos : 0 < CHUNK_SIZE.
Proof. apply Nat.ltb_lt. vm_compute. reflexivity. Qed.

Lemma chunks_nil (n : nat) : chunks n [] = [].
Proof. destruct n; by simp chunks. Qed.

Lemma chunks_cons (n : nat) (l : list byte) :
  0 < n → l ≠ [] → chunks n l = take n l :: chunks n (drop n l).
Proof.
  intros Hn Hl. destruct n as [|n]; [lia|]. destruct l as [|x l]; [done|].
  by simp chunks.
Qed.

Lemma concat_chunks (n : nat) (l : list byte) :
  0 < n → concat (chunks n l) = l.
Proof.
  intros Hn. funelim (chunks n l); simp chunks; [lia|done|].
  rewrite concat_cons, H by done. apply take_drop.
Qed.

Lemma chunks_bounded (n : nat) (l : list byte) :
  Forall (fun c => 0 < length c ≤ n) (chunks n l).
Proof.
  funelim (chunks n l); simp chunks; [done..|].
  constructor; [|done]. rewrite length_take. simpl. lia.
Qed.

(** ** The sender on a channel without failures *)

Lemma sendData_clean (data : Message) (w : World) :
  no_send_failure w →
  ∃ w', sendData data w = Ok true w' ∧ state w' = state w ∧
        no_send_failure w' ∧ outbox w' = outbox w ++ [data].
Proof.
  intros (r & p & Hr & Hp & Hc & Hfaults).
  assert (Hlt : r < length (peers w)) by by eapply lookup_lt_Some.
  unfold sendData. run_monad. rewrite Hr. simpl.
  unfold peer_connected, peer_send. rewrite Hp, Hc. simpl. rewrite Hp.
  assert (Hhead : head (send_faults p) = None ∨ head (send_faults p) = Some None).
  { destruct Hfaults as [|? ? ->]; auto. }
  assert (Htail : Forall (fun fault => fault = None) (tail (send_faults p))).
  { destruct Hfaults; [constructor|done]. }
  eexists. split; [by destruct Hhead as [-> | ->]|].
  split; [reflexivity|]. split.
  - eexists r, _. simpl. rewrite Hr. rewrite list_lookup_insert_eq by done.
    repeat split; done.
  - unfold outbox. simpl. rewrite Hr. simpl.
    rewrite list_lookup_insert_eq by done. by rewrite Hp.
Qed.

Lemma remaining_at_zero (w : World) :
  currentOffset (state w) = 0 →
  remaining w =
    sum_list ((S ∘ size) <$> drop (currentFileIndex (state w)) (fileQueue (state w))).
Proof.
  intros Hoff. unfold remaining. rewrite Hoff.
  destruct (drop _ _); csimpl; [done|]. lia.
Qed.

Lemma pending_at_zero (w : World) :
  currentOffset (state w) = 0 →
  pending w =
    queue_chunks (drop (currentFileIndex (state w)) (fileQueue (state w))).
Proof.
  intros Hoff. unfold pending. rewrite Hoff. by destruct (drop _ _).
Qed.

(** The loop ends normally within its bound, whatever the channel does. *)
Lemma loop_returns (fuel : nat) (w : World) :
  remaining w < fuel → ∃ w', sendNextFile_loop fuel w = Ok tt w'.
Proof.
  revert w. induction fuel as [|fuel IH]; intros w Hfuel; [lia|].
  simpl. run_monad.
  destruct (fileQueue (state w) !! currentFileIndex (state w)) as [file|] eqn:Hfile;
    [|by eexists].
  assert (Hdrop : drop (currentFileIndex (state w)) (fileQueue (state w)) =
                  file :: drop (S (currentFileIndex (state w))) (fileQueue (state w)))
    by by apply drop_S.
  unfold remaining in Hfuel. rewrite Hdrop in Hfuel.
  destruct (decide _) as [Hend|Hmore]; simpl.
  - apply IH. rewrite remaining_at_zero by done. simpl. lia.
  - set (chunk := slice file _ _).
    assert (Hlen : 0 < length chunk).
    { unfold chunk, slice. rewrite length_take, length_drop.
      pose proof CHUNK_SIZE_pos. unfold size in *. lia. }
    destruct (sendData_effect (Binary chunk) w) as (b & w1 & -> & _ & Hst & _).
    destruct b; simpl; [|by eexists].
    apply IH. unfold remaining. simpl. rewrite Hst, Hdrop. lia.
Qed.

Lemma sendNextFile_returns (w : World) : ∃ w', sendNextFile w = Ok tt w'.
Proof. apply loop_returns. lia. Qed.

(** With no failure on the channel the loop ends normally within its
    bound, having sent every chunk it owed, in order. *)
Lemma loop_all_sent (fuel : nat) (w : World) :
  no_send_failure w → remaining w < fuel →
  ∃ w', sendNextFile_loop fuel w = Ok tt w' ∧
        outbox w' = outbox w ++ (Binary <$> pending w).
Proof.
  revert w. induction fuel as [|fuel IH]; intros w Hclean Hfuel; [lia|].
  simpl. run_monad.
  destruct (fileQueue (state w) !! currentFileIndex (state w)) as [file|] eqn:Hfile.
  2:{ exists w. split; [done|]. unfold pending.
      rewrite drop_ge by by apply lookup_ge_None. by rewrite app_nil_r. }
  assert (Hdrop : drop (currentFileIndex (state w)) (fileQueue (state w)) =
                  file :: drop (S (currentFileIndex (state w))) (fileQueue (state w)))
    by by apply drop_S.
  unfold remaining in Hfuel. rewrite Hdrop in Hfuel.
  destruct (decide _) as [Hend|Hmore]; simpl.
  - match goal with |- context [sendNextFile_loop fuel ?w1] =>
      destruct (IH w1) as (w' & Hrun & Hout) end.
    + exact Hclean.
    + rewrite remaining_at_zero by done. simpl. lia.
    + exists w'. split; [done|]. rewrite Hout.
      rewrite pending_at_zero by done. unfold pending. rewrite Hdrop.
      rewrite (drop_ge (content file)) by exact Hend. by rewrite chunks_nil.
  - set (chunk := slice file _ _).
    destruct (sendData_clean (Binary chunk) w Hclean)
      as (w1 & -> & Hst & Hclean1 & Hout1).
    simpl.
    assert (Hchunk : chunk = take CHUNK_SIZE (drop (currentOffset (state w)) (content file))).
    { unfold chunk, slice. f_equal. lia. }
    assert (Hlen : 0 < length chunk ≤ size file - currentOffset (state w)).
    { rewrite Hchunk, length_take, length_drop. pose proof CHUNK_SIZE_pos.
      unfold size in *. lia. }
    match goal with |- context [sendNextFile_loop fuel ?w2] =>
      destruct (IH w2) as (w' & Hrun & Hout) end.
    + destruct Hclean1 as (r & p & ? & ? & ? & ?). by exists r, p.
    + unfold remaining. simpl. rewrite Hst, Hdrop. lia.
    + exists w'. split; [done|]. rewrite Hout.
      change (outbox (set_state ?f w1)) with
        (from_option sent [] (peer (f (state w1)) ≫= (peers w1 !!.))).
      simpl. fold (outbox w1). rewrite Hout1, <- app_assoc. f_equal.
      unfold pending. simpl. rewrite Hst, Hdrop.
      rewrite (chunks_cons CHUNK_SIZE (drop (currentOffset (state w)) (content file)));
        [|apply CHUNK_SIZE_pos|].
      2:{ intros Hnil. apply (f_equal length) in Hnil.
          rewrite length_drop in Hnil. unfold size in *. simpl in Hnil. lia. }
      rewrite <- Hchunk. simpl. do 2 f_equal. rewrite drop_drop.
      assert (Hmin : length chunk =
                CHUNK_SIZE `min` (size file - currentOffset (state w))).
      { rewrite Hchunk, length_take, length_drop. done. }
      destruct (decide (CHUNK_SIZE ≤ size file - currentOffset (state w))) as [Hle|Hgt].
      * do 3 f_equal. lia.
      * rewrite (drop_ge (content file) (_ + length chunk)),
          (drop_ge (content file) (_ + CHUNK_SIZE)); [done|..];
          unfold size in *; lia.
Qed.

(** A session on a channel without failures: the metadata, then every
    chunk of every file, in queue order. *)
Lemma startFileTransfer_all_sent (w : World) :
  no_send_failure w →
  ∃ w', startFileTransfer w = Ok tt w' ∧
        outbox w' =
          outbox w ++
          Text (metadata (fileQueue (state w)) (totalSize (state w)) (now w)) ::
          (Binary <$> queue_chunks (fileQueue (state w))).
Proof.
  intros Hclean.
  unfold startFileTransfer, startFileTransfer_with, bind, modify, gets.
  set (w0 := set_state _ w).
  change (fileQueue (state w)) with (fileQueue (state w0)).
  change (totalSize (state w)) with (totalSize (state w0)).
  change (now w) with (now w0).
  change (outbox w) with (outbox w0).
  destruct (sendData_clean
              (Text (metadata (fileQueue (state w0)) (totalSize (state w0)) (now w0)))
              w0) as (w1 & -> & Hst & Hclean1 & Hout1).
  { destruct Hclean as (r & p & ? & ? & ? & ?). by exists r, p. }
  unfold sendNextFile.
  destruct (loop_all_sent (S (remaining w1)) w1 Hclean1) as (w' & Hrun & Hout);
    [lia|].
  exists w'. split; [exact Hrun|].
  rewrite Hout, Hout1, <- app_assoc. simpl. do 3 f_equal.
  rewrite pending_at_zero by by rewrite Hst. by rewrite Hst.
Qed.

(** ** The receiver *)

Lemma decode_sizes (queue : list File) :
  mapM (fun d => match get_prop "size" d with
                 | Some (JNum n) => Some (Z.to_nat n)
                 | _ => None
                 end) (descriptor <$> queue) = Some (size <$> queue).
Proof.
  induction queue as [|file queue IH]; [done|].
  csimpl.
  match goal with |- ?x ≫= _ = _ => replace x with (Some (size <$> queue)) end.
  simpl. by rewrite Nat2Z.id.
Qed.

Lemma decode_metadata_metadata (queue : list File) (total : nat) (t : Z) :
  decode_metadata (metadata queue total t) = Some (size <$> queue, total).
Proof.
  unfold decode_metadata, metadata. simpl.
  rewrite decode_sizes. simpl. by rewrite Nat2Z.id.
Qed.

Lemma queue_chunks_app (q1 q2 : list File) :
  queue_chunks (q1 ++ q2) = queue_chunks q1 ++ queue_chunks q2.
Proof. unfold queue_chunks. apply bind_app. Qed.

Lemma queue_chunks_cons (file : File) (queue : list File) :
  queue_chunks (file :: queue) =
    chunks CHUNK_SIZE (content file) ++ queue_chunks queue.
Proof. reflexivity. Qed.

(** Stepping over the empty files that start [fs]. *)
Lemma settle_spec (fs : list File) (k : nat) (done : list (nat * list byte)) :
  ∃ j, j ≤ length fs ∧
       settle (size <$> fs) k done =
         (k + j, done ++ zip (seq k j) (content <$> take j fs)) ∧
       queue_chunks (take j fs) = [] ∧
       (∀ file, fs !! j = Some file → size file ≠ 0).
Proof.
  revert k done. induction fs as [|file fs IH]; intros k done.
  - exists 0. simpl. rewrite Nat.add_0_r, app_nil_r. repeat split; [lia|done].
  - destruct (size file) as [|n] eqn:Hsize.
    + destruct (IH (S k) (done ++ [(k, [])])) as (j & Hj & Hsettle & Hnone & Hnext).
      assert (Hempty : content file = []) by by apply nil_length_inv.
      exists (S j). split; [simpl; lia|]. split; [|split].
      * change (size <$> file :: fs) with (size file :: (size <$> fs)).
        rewrite Hsize. simpl. rewrite Hsettle, Hempty, <- app_assoc.
        f_equal. lia.
      * change (take (S j) (file :: fs)) with (file :: take j fs).
        by rewrite queue_chunks_cons, Hnone, Hempty, chunks_nil.
      * exact Hnext.
    + exists 0. split; [lia|]. split; [|split].
      * change (size <$> file :: fs) with (size file :: (size <$> fs)).
        rewrite Hsize. simpl. by rewrite Nat.add_0_r, app_nil_r.
      * done.
      * intros f [= <-]. lia.
Qed.

Lemma completed_grows (queue : list File) (k j : nat) (file : File) :
  queue !! k = Some file →
  (zip (seq 0 k) (content <$> take k queue) ++ [(k, content file)]) ++
    zip (seq (S k) j) (content <$> take j (drop (S k) queue)) =
  zip (seq 0 (S k + j)) (content <$> take (S k + j) queue).
Proof.
  intros Hfile.
  assert (Hk : k < length queue) by by eapply lookup_lt_Some.
  rewrite <- (take_take_drop queue (S k) j), (take_S_r queue k file Hfile).
  rewrite !fmap_app, seq_app, seq_S, !Nat.add_0_l.
  rewrite !zip_with_app; [done|..];
    rewrite ?length_app, ?length_seq, ?length_fmap, ?length_take; simpl; lia.
Qed.

(** The chunks of one file, fed to a receiver that stands inside that
    file, bring it to the start of the next file that is not empty. *)
Lemma receive_file (queue : list File) (k : nat) (file : File) :
  queue !! k = Some file →
  ∀ (rest : list byte) (acc : list (list byte)) (rc : Receiver),
    concat acc ++ rest = content file → rest ≠ [] → in_file queue k acc rc →
    ∃ k', k < k' ∧
      at_file_start queue k'
        (receive_all rc (Binary <$> chunks CHUNK_SIZE rest)) ∧
      queue_chunks (drop (S k) queue) = queue_chunks (drop k' queue).
Proof.
  pose proof CHUNK_SIZE_pos as Hpos. revert Hpos.
  generalize CHUNK_SIZE as chunk_size. intros chunk_size Hpos.
  intros Hfile rest. remember (length rest) as n eqn:Hn. revert rest Hn.
  induction n as [n IH] using lt_wf_ind.
  intros rest Hn acc rc Hcat Hrest Hin.
  assert (Hk : k < length queue) by by eapply lookup_lt_Some.
  assert (Hsize : size file = length (concat acc) + length rest).
  { unfold size. by rewrite <- Hcat, length_app. }
  assert (Hlen : 0 < length rest) by (destruct rest; [done|simpl; lia]).
  rewrite (chunks_cons chunk_size rest) by done.
  set (c := take chunk_size rest). set (rest' := drop chunk_size rest).
  assert (Hc : length c = chunk_size `min` length rest) by apply length_take.
  assert (Hrest' : length rest' = length rest - chunk_size) by apply length_drop.
  assert (Hsplit : c ++ rest' = rest) by apply take_drop.
  destruct rc as [ex adv act buf fr rcv comp tc viol].
  destruct Hin as (Hex & Hact & Hbuf & Hacc & Hfr & Hviol & Hcomp).
  simpl in Hex, Hact, Hbuf, Hacc, Hfr, Hviol, Hcomp. subst ex act fr viol comp.
  unfold receive_all. rewrite fmap_cons. simpl foldl.
  unfold receive at 2. simpl.
  rewrite list_lookup_fmap, Hfile. simpl. rewrite Hacc.
  destruct (decide (size file < _)) as [Hover|_]; [lia|].
  destruct (decide (_ = size file)) as [Hdone|Hmore].
  - assert (Hnil : rest' = []) by (apply nil_length_inv; lia).
    assert (Hall : c = rest) by (rewrite <- Hsplit, Hnil; by rewrite app_nil_r).
    destruct (settle_spec (drop (S k) queue) (S k)
                (zip (seq 0 k) (content <$> take k queue) ++
                 [(k, concat (acc ++ [c]))]))
      as (j & Hj & Hsettle & Hnone & Hnext).
    rewrite length_drop in Hj.
    rewrite <- fmap_drop, Hsettle, Hnil, chunks_nil. simpl.
    exists (S k + j). split; [lia|]. split.
    + unfold at_file_start.
      cbn [expected active buffers fileReceived violation completed].
      repeat split.
      * lia.
      * apply map_eq. intros i. rewrite lookup_empty.
        destruct (decide (i = k)) as [->|Hne];
          [apply lookup_delete_eq|rewrite lookup_delete_ne by done; by apply Hbuf].
      * rewrite concat_app, Hall. cbn [concat]. rewrite app_nil_r, Hcat.
        by apply completed_grows.
      * intros f Hf. apply Hnext. by rewrite lookup_drop.
    + rewrite <- (take_drop j (drop (S k) queue)) at 1.
      rewrite queue_chunks_app, Hnone, drop_drop. done.
  - assert (Hne' : rest' ≠ []).
    { intros Hnil. rewrite Hnil in Hrest'. simpl in Hrest'. lia. }
    eapply (fun Hlt => IH (length rest') Hlt rest' eq_refl (acc ++ [c]));
      [lia| |exact Hne'|].
    + rewrite concat_app. cbn [concat].
      rewrite app_nil_r, <- app_assoc, Hsplit. exact Hcat.
    + unfold in_file.
      cbn [expected active buffers fileReceived violation completed].
      repeat split.
      * intros i Hi. rewrite lookup_insert_ne by done. by apply Hbuf.
      * by rewrite lookup_insert_eq.
      * rewrite concat_app, length_app. cbn [concat]. by rewrite app_nil_r.
Qed.

(** The metadata message brings an idle receiver to the start of the first
    file that is not empty. *)
Lemma receive_metadata (queue : list File) (total : nat) (t : Z) :
  ∃ j, j ≤ length queue ∧
       receive idle (Text (metadata queue total t)) =
         mkReceiver (Some (size <$> queue)) total j ∅ 0 0
                    (zip (seq 0 j) (content <$> take j queue)) false None ∧
       queue_chunks (take j queue) = [] ∧
       (∀ file, queue !! j = Some file → size file ≠ 0).
Proof.
  destruct (settle_spec queue 0 []) as (j & Hj & Hsettle & Hnone & Hnext).
  exists j. split; [exact Hj|]. split; [|by split].
  unfold receive. cbn [violation expected idle].
  by rewrite decode_metadata_metadata, Hsettle.
Qed.

(** The chunks of the files from [k] on bring a receiver that stands at
    the start of file [k] to the end of the queue. *)
Lemma receive_queue (queue : list File) (n k : nat) (rc : Receiver) :
  length queue - k ≤ n → at_file_start queue k rc →
  at_file_start queue (length queue)
    (receive_all rc (Binary <$> queue_chunks (drop k queue))).
Proof.
  revert k rc. induction n as [|n IH]; intros k rc Hn Hstart;
    pose proof Hstart as (Hex & Hact & Hk & Hbuf & Hfr & Hviol & Hcomp & Hsize);
    (destruct (decide (k = length queue)) as [->|Hne];
     [by rewrite drop_all|]); [lia|].
  destruct (lookup_lt_is_Some_2 queue k) as [file Hfile]; [lia|].
  rewrite (drop_S queue file k Hfile), queue_chunks_cons, fmap_app.
  unfold receive_all. rewrite foldl_app.
  destruct (receive_file queue k file Hfile (content file) [] rc)
    as (k' & Hk' & Hstart' & Hchunks).
  - done.
  - intros Hnil. apply (Hsize file Hfile). unfold size. by rewrite Hnil.
  - split; [exact Hex|]. split; [exact Hact|].
    split; [intros j _; rewrite Hbuf; apply lookup_empty|].
    split; [by rewrite Hbuf, lookup_empty|].
    split; [by rewrite Hfr|]. split; [exact Hviol|exact Hcomp].
  - rewrite Hchunks. apply IH; [lia|exact Hstart'].
Qed.

(** ** Round trip *)

(** C1. On an open channel on which no [send] fails, [startFileTransfer]
    ends normally, and the messages it put on the channel, fed in that order
    to a receiver that is idle, make it hand over one artifact per queued
    file, in queue order, each with exactly the bytes of its file, with no
    protocol violation. *)
Theorem roundtrip (w : World) :
  no_send_failure w →
  ∃ w' session,
    startFileTransfer w = Ok tt w' ∧
    outbox w' = outbox w ++ session ∧
    reassembled (receive_all idle session) = content <$> fileQueue (state w) ∧
    (fst <$> completed (receive_all idle session)) =
      seq 0 (length (fileQueue (state w))) ∧
    violation (receive_all idle session) = None.
Proof.
  intros Hclean.
  destruct (startFileTransfer_all_sent w Hclean) as (w' & Hrun & Hout).
  set (queue := fileQueue (state w)) in *.
  destruct (receive_metadata queue (totalSize (state w)) (now w))
    as (j & Hj & Hrecv & Hnone & Hnext).
  assert (Hchunks : queue_chunks queue = queue_chunks (drop j queue)).
  { rewrite <- (take_drop j queue) at 1. by rewrite queue_chunks_app, Hnone. }
  eexists w', _. split; [exact Hrun|]. split; [exact Hout|].
  change (receive_all idle (Text ?m :: ?l)) with
    (receive_all (receive idle (Text m)) l).
  rewrite Hrecv, Hchunks.
  set (rc0 := mkReceiver _ _ _ _ _ _ _ _ _).
  destruct (receive_queue queue (length queue) j rc0)
    as (_ & _ & _ & _ & _ & Hviol & Hcomp & _); [lia|by repeat split|].
  unfold reassembled. rewrite Hviol, Hcomp, firstn_all.
  rewrite snd_zip, fst_zip by by rewrite length_seq, length_fmap.
  done.
Qed.

(** The sample page with its channel open: the three bytes of a.txt come
    out as they went in. *)
Lemma roundtrip_witness :
  ∃ w' session,
    startFileTransfer channel_open = Ok tt w' ∧
    outbox w' = outbox channel_open ++ session ∧
    reassembled (receive_all idle session) = [content abc] ∧
    (fst <$> completed (receive_all idle session)) = [0] ∧
    violation (receive_all idle session) = None.
Proof.
  apply (roundtrip channel_open).
  exists 0, (mkPeer true true false [] None []
                    ["data"; "close"; "error"; "connect"; "signal"]).
  repeat split; constructor.
Defined.

(** The scenario of the specification: 20000 bytes go out as the metadata,
    a chunk of 16384 bytes and a chunk of 3616 bytes, and come back whole. *)
Example scenario_20000 :
  let session := outbox (world_of (startFileTransfer big_queued)) in
  match session, reassembled (receive_all idle session) with
  | [Text _; Binary c1; Binary c2], [artifact] =>
      (length c1 =? Z.to_nat 16384) && (length c2 =? Z.to_nat 3616) &&
      bytes_eqb artifact (content big)
  | _, _ => false
  end = true.
Proof. vm_compute. reflexivity. Qed.

End ClientFacts.

(** * More on the relay *)

Module RelayMore.
Import Relay RelayFacts.

(** X1. The [answer] and [ice-candidate] listeners, i.js:49-55, forward the
    payload alone. Whatever the packet gives as its target (one id, an
    array, anything else), each message produced carries the event name and
    the payload and nothing more: the recipient is not told who sent it.
    With one id as target the message goes to that socket when it is
    another connected socket, and to nobody otherwise. *)
Theorem answer_and_candidate_carry_no_identity
    (sv : Server) (self : EndpointId) (payload : json) :
  (∀ (target : Target) (e : Emit),
     (e ∈ snd (step sv (Packet self "answer" payload target)) →
      event e = "answer" ∧ args e = [payload]) ∧
     (e ∈ snd (step sv (Packet self "ice-candidate" payload target)) →
      event e = "ice-candidate" ∧ args e = [payload])) ∧
  ∀ targetId : EndpointId,
    step sv (Packet self "answer" payload (Room targetId)) =
      (sv, if decide (targetId ∈ sockets sv ∧ targetId ≠ self)
           then [mkEmit targetId "answer" [payload]] else []) ∧
    step sv (Packet self "ice-candidate" payload (Room targetId)) =
      (sv, if decide (targetId ∈ sockets sv ∧ targetId ≠ self)
           then [mkEmit targetId "ice-candidate" [payload]] else []).
Proof.
  split.
  - intros target e. unfold step. rewrite !listener_lookup. cbn [snd].
    cbv beta iota. unfold on_answer, on_ice_candidate.
    split; intros (He & _)%socket_to_emit_elem; by rewrite He.
  - intros targetId.
    split; unfold step; rewrite listener_lookup; simpl;
      [unfold on_answer | unfold on_ice_candidate];
      by rewrite socket_to_emit_spec.
Qed.

Lemma packet_emits
    (sv : Server) (self : EndpointId) (target : Target) (name : string)
    (payload : json) :
  ∀ e, e ∈ snd (step sv (Packet self name payload target)) →
       recipient e ∈ sockets sv ∧ recipient e ≠ self ∧
       names target (recipient e) ∧
       event e = name ∧ head (args e) = Some payload ∧
       (name = "offer" ∨ name = "answer" ∨ name = "ice-candidate").
Proof.
  intros e. destruct (packet_out sv self name payload target) as [rest ->].
  case_bool_decide as Hname; [|by intros ?%elem_of_nil].
  intros (He & Hin & Hne & Hnames)%socket_to_emit_elem.
  rewrite He. cbn [recipient event args head].
  rewrite !elem_of_cons, elem_of_nil in Hname. naive_solver.
Qed.

(** X2. Whatever a client sends, the relay keeps no trace of it. What it
    forwards goes only to connected sockets other than the sender that the
    target names (the id given, an id listed in the array given, any
    socket when the array is empty, nobody for another value), under the
    event name it came with, one of the three the relay listens to, with
    the payload first. Under one of these names every such socket gets the
    message, and on a relay that lists its sockets once no socket gets it
    twice. *)
Theorem packets_reach_connected_others_only
    (sv : Server) (self : EndpointId) (target : Target) (name : string)
    (payload : json) :
  let out := snd (step sv (Packet self name payload target)) in
  let named (x : EndpointId) :=
    match target with
    | Room room => x = room
    | Rooms [] => True
    | Rooms rooms => Some x ∈ rooms
    | NoRoom => False
    end in
  fst (step sv (Packet self name payload target)) = sv ∧
  (∀ e, e ∈ out →
        recipient e ∈ sockets sv ∧ recipient e ≠ self ∧ named (recipient e) ∧
        event e = name ∧ head (args e) = Some payload ∧
        (name = "offer" ∨ name = "answer" ∨ name = "ice-candidate")) ∧
  (∀ x, name = "offer" ∨ name = "answer" ∨ name = "ice-candidate" →
        x ∈ sockets sv → x ≠ self → named x →
        ∃ e, e ∈ out ∧ recipient e = x) ∧
  (NoDup (sockets sv) → NoDup (recipient <$> out)).
Proof.
  intros out named.
  assert (Hnamed : ∀ x, named x ↔ names target x) by (by destruct target).
  split; [reflexivity|]. split; [|split].
  - intros e He. rewrite Hnamed. by apply packet_emits.
  - intros x Hname Hin Hne Hx. subst out.
    destruct (packet_out sv self name payload target) as [rest ->].
    rewrite bool_decide_eq_true_2
      by (rewrite !elem_of_cons, elem_of_nil; naive_solver).
    exists (mkEmit x name (payload :: rest)). split; [|done].
    apply socket_to_emit_elem. cbn [recipient]. by rewrite <- Hnamed.
  - intros Hnd. subst out.
    destruct (packet_out sv self name payload target) as [rest ->].
    case_bool_decide; [|constructor].
    rewrite socket_to_emit_recipients. by apply NoDup_filter, addressed_NoDup.
Qed.

(** On a relay that got where it is from its start, the sockets are listed
    once each and every connected socket has its timer armed. *)
Lemma run_keeps_registry (inputs : list Input) (sv : Server) :
  NoDup (sockets sv) → (∀ x, x ∈ sockets sv → x ∈ intervals sv) →
  NoDup (sockets (fst (run sv inputs))) ∧
  (∀ x, x ∈ sockets (fst (run sv inputs)) → x ∈ intervals (fst (run sv inputs))).
Proof.
  revert sv. induction inputs as [|i inputs IH]; intros sv Hnd Harmed; [done|].
  simpl. destruct (step sv i) as [sv1 out1] eqn:Hstep.
  destruct (run sv1 inputs) as [sv2 out2] eqn:Hrun.
  specialize (IH sv1). rewrite Hrun in IH. simpl in *. apply IH.
  - destruct i; simpl in Hstep; injection Hstep as <- _; simpl; try done.
    + destruct (decide _) as [Hin|Hout]; [done|].
      apply NoDup_app. split; [done|]. split; [|apply NoDup_singleton].
      intros x Hx Hx'. apply list_elem_of_singleton in Hx'. by subst.
    + by apply NoDup_filter.
  - destruct i; simpl in Hstep; injection Hstep as <- _; simpl; try done.
    + intros x Hx. destruct (decide _) as [Hin|Hout].
      * apply elem_of_cons. right. by apply Harmed.
      * apply elem_of_cons. apply elem_of_app in Hx as [Hx|Hx];
          [right; by apply Harmed|left; by apply list_elem_of_singleton in Hx].
    + intros x Hx. unfold remove in *. apply list_elem_of_filter in Hx as [Hne Hx].
      apply list_elem_of_filter. split; [done|by apply Harmed].
Qed.

(** X3. The periodic push, i.js:32-38: on a relay run from its start, the timer
    of a connected socket sends that socket exactly one [peers] message,
    which lists every other connected socket once and never the socket
    itself. *)
Theorem peer_list_is_the_others (inputs : list Input) (self : EndpointId) :
  let sv := fst (run start inputs) in
  self ∈ sockets sv →
  ∃ others,
    snd (step sv (Tick self)) = [mkEmit self "peers" [JArr (JStr <$> others)]] ∧
    NoDup others ∧
    ∀ x, x ∈ others ↔ x ∈ sockets sv ∧ x ≠ self.
Proof.
  intros sv Hin.
  destruct (run_keeps_registry inputs start) as [Hnd Harmed];
    [apply NoDup_nil_2|by intros x Hx; apply not_elem_of_nil in Hx|].
  fold sv in Hnd, Harmed.
  exists (filter (fun x => x ≠ self) (sockets sv)). split; [|split].
  - simpl. rewrite decide_True by by apply Harmed. reflexivity.
  - by apply NoDup_filter.
  - intros x. rewrite list_elem_of_filter. tauto.
Qed.

Lemma peer_list_is_the_others_witness :
  ∃ others,
    snd (step (fst (run start [Connection "peerA"; Connection "peerB";
                               Connection "peerC"; Disconnect "peerB"]))
              (Tick "peerA")) =
      [mkEmit "peerA" "peers" [JArr (JStr <$> others)]] ∧
    NoDup others ∧
    ∀ x, x ∈ others ↔
         x ∈ sockets (fst (run start [Connection "peerA"; Connection "peerB";
                                      Connection "peerC"; Disconnect "peerB"])) ∧
         x ≠ "peerA".
Proof.
  apply (peer_list_is_the_others
           [Connection "peerA"; Connection "peerB"; Connection "peerC";
            Disconnect "peerB"] "peerA").
  vm_compute. constructor.
Defined.

Lemma absent_gets_nothing (gone : EndpointId) (inputs : list Input) (sv : Server) :
  gone ∉ sockets sv → gone ∉ intervals sv →
  (∀ i, i ∈ inputs → i ≠ Connection gone) →
  ∀ e, e ∈ snd (run sv inputs) →
       recipient e ≠ gone ∧
       (∀ items, event e = "peers" → args e = [JArr items] → JStr gone ∉ items).
Proof.
  revert sv. induction inputs as [|i inputs IH]; intros sv Hs Hi Hin e He;
    [by apply not_elem_of_nil in He|].
  simpl in He. destruct (step sv i) as [sv1 out1] eqn:Hstep.
  destruct (run sv1 inputs) as [sv2 out2] eqn:Hrun. simpl in He.
  apply elem_of_app in He as [He|He].
  - destruct i as [id|id|id|id name payload targetId];
      try (injection Hstep as <- <-; by apply not_elem_of_nil in He).
    + injection Hstep as <- <-. destruct (decide _) as [Harmed|_];
        [|by apply not_elem_of_nil in He].
      apply list_elem_of_singleton in He. subst e. simpl. split; [congruence|].
      intros items _ [= <-] Hgone. apply list_elem_of_fmap in Hgone as (x & [= <-] & Hx).
      apply list_elem_of_filter in Hx as [_ Hx]. done.
    + destruct (packet_emits sv id targetId name payload e)
        as (Hr & _ & _ & Hev & _ & Hname); [by rewrite Hstep|].
      split; [by intros Heq; rewrite Heq in Hr|]. intros items Hpeers _.
      destruct Hname as [H|[H|H]]; congruence.
  - assert (Hrun' : e ∈ snd (run sv1 inputs)) by by rewrite Hrun.
    apply (IH sv1); [..|exact Hrun'].
    + destruct i; simpl in Hstep; injection Hstep as <- _; simpl; try done.
      * destruct (decide _); [done|]. rewrite elem_of_app, list_elem_of_singleton.
        intros [?|Heq]; [done|].
        apply (Hin (Connection gone)); [rewrite Heq; left|done].
      * unfold remove. rewrite list_elem_of_filter. tauto.
    + destruct i; simpl in Hstep; injection Hstep as <- _; simpl; try done.
      * rewrite elem_of_cons. intros [Heq|?]; [|done].
        apply (Hin (Connection gone)); [rewrite Heq; left|done].
      * unfold remove. rewrite list_elem_of_filter. tauto.
    + intros i' Hi'. apply Hin. by right.
Qed.

(** X4. The [disconnect] listener, i.js:40-43, with the socket leaving
    [io.sockets.sockets]: from its disconnection until it connects again an
    endpoint is sent nothing, its timer being cleared, and no peer list
    names it. *)
Theorem disconnected_endpoint_is_left_alone
    (sv : Server) (gone : EndpointId) (inputs : list Input) :
  (∀ i, i ∈ inputs → i ≠ Connection gone) →
  ∀ e, e ∈ snd (run (fst (step sv (Disconnect gone))) inputs) →
       recipient e ≠ gone ∧
       (∀ items, event e = "peers" → args e = [JArr items] → JStr gone ∉ items).
Proof.
  intros Hin. apply absent_gets_nothing; [..|exact Hin]; simpl; unfold remove;
    rewrite list_elem_of_filter; tauto.
Qed.

(** peerB leaves; peerA's timer fires, and peerA offers to peerB and then to
    every socket. *)
Lemma disconnected_endpoint_is_left_alone_witness :
  Forall (fun e => recipient e ≠ "peerB" ∧
                   (∀ items, event e = "peers" → args e = [JArr items] →
                             JStr "peerB" ∉ items))
         (snd (run (fst (step (fst (run start [Connection "peerA";
                                               Connection "peerB"]))
                              (Disconnect "peerB")))
                   [Tick "peerA"; Tick "peerB";
                    Packet "peerA" "offer" JNull (Room "peerB");
                    Packet "peerA" "offer" JNull (Rooms [])])).
Proof.
  apply Forall_forall.
  apply (disconnected_endpoint_is_left_alone
           (fst (run start [Connection "peerA"; Connection "peerB"])) "peerB"
           [Tick "peerA"; Tick "peerB";
            Packet "peerA" "offer" JNull (Room "peerB");
            Packet "peerA" "offer" JNull (Rooms [])]).
  intros i Hi. repeat (apply elem_of_cons in Hi as [->|Hi]; [discriminate|]).
  by apply not_elem_of_nil in Hi.
Defined.

End RelayMore.

(** * More on the client *)

Module ClientMore.
Import Client ClientFacts.

(** ** [sendData] and the log *)

(** X5. [sendData], app.js:254-267, reports every failure and nothing else: a
    call that returns [false] adds exactly one entry of level [error] to the
    log and nothing to the channel, a call that returns [true] adds the data
    to the channel and nothing to the log. Either way [state], the page and
    the timers stay as they were. *)
Theorem sendData_reports_each_failure (data : Message) (w : World) :
  ∃ b w',
    sendData data w = Ok b w' ∧
    state w' = state w ∧ elements w' = elements w ∧ timers w' = timers w ∧
    if b then log w' = log w ∧ outbox w' = outbox w ++ [data]
    else outbox w' = outbox w ∧ ∃ message, log w' = log w ++ [(message, "error")].
Proof.
  unfold sendData. run_monad.
  destruct (peer (state w)) as [r|] eqn:Hr; simpl.
  - unfold peer_connected, peer_send.
    destruct (peers w !! r) as [p|] eqn:Hp; simpl.
    + assert (Hlt : r < length (peers w)) by by eapply lookup_lt_Some.
      destruct (connected p) eqn:Hc; simpl; rewrite ?Hp; simpl.
      * destruct (head (send_faults p)) as [[m|]|]; simpl;
          eexists _, _; (split; [reflexivity|]); do 3 (split; [reflexivity|]);
          unfold outbox; simpl; rewrite Hr; simpl;
          rewrite list_lookup_insert_eq by done; rewrite Hp; simpl;
          split; (reflexivity || by eexists).
      * eexists _, _. split; [reflexivity|]. do 3 (split; [reflexivity|]).
        split; [reflexivity|]. by eexists.
    + eexists _, _. split; [reflexivity|]. do 3 (split; [reflexivity|]).
      split; [reflexivity|]. by eexists.
  - eexists _, _. split; [reflexivity|]. do 3 (split; [reflexivity|]).
    split; [reflexivity|]. by eexists.
Qed.

(** ** Picking files *)

(** X6. [handleFileSelect], app.js:147-179, on a page that has the selector, the
    list and the send button, with files picked: it ends normally; the queue
    is the picked files in their order, the total is the sum of their sizes,
    the list shows one row per file carrying the file's position as its
    index, the send button is enabled, and the peer is not touched. *)
Theorem picked_files_become_the_queue (fmt : nat → string) (w : World)
    (sel lst btn : Element) (first : File) (others : list File) :
  fileSelector (elements w) = Some sel → files sel = Some (first :: others) →
  fileList (elements w) = Some lst → sendBtn (elements w) = Some btn →
  ∃ w',
    handleFileSelect fmt w = Ok tt w' ∧
    fileQueue (state w') = first :: others ∧
    totalSize (state w') = sum_list (size <$> first :: others) ∧
    children <$> fileList (elements w') =
      Some (imap (fun index file => (name file, fmt (size file), index))
                 (first :: others)) ∧
    disabled <$> sendBtn (elements w') = Some false ∧
    peer (state w') = peer (state w) ∧ peers w' = peers w.
Proof.
  destruct w as [[sk pr lp sp' fq ix cf off rb rs ts ca mx]
                 [d fs fl sb pb pt sp] ps tm lg cs on nw].
  simpl. intros -> Hfiles -> ->.
  unfold handleFileSelect, assign. run_monad. simpl. rewrite Hfiles. simpl.
  eexists. split; [reflexivity|]. simpl.
  split; [reflexivity|]. split; [|by repeat split].
  by rewrite foldl_sizes.
Qed.

Lemma picked_files_become_the_queue_witness :
  ∃ w',
    handleFileSelect show_size
      (set_elements (set_fileSelector (Some (set_files (Some [abc; abc]) blank)))
                    (initial sample_page 0)) = Ok tt w' ∧
    fileQueue (state w') = [abc; abc] ∧
    totalSize (state w') = sum_list (size <$> [abc; abc]) ∧
    children <$> fileList (elements w') =
      Some (imap (fun index file => (name file, show_size (size file), index))
                 [abc; abc]) ∧
    disabled <$> sendBtn (elements w') = Some false ∧
    peer (state w') = None ∧ peers w' = [].
Proof.
  apply (picked_files_become_the_queue show_size
           (set_elements (set_fileSelector (Some (set_files (Some [abc; abc]) blank)))
                         (initial sample_page 0))
           (set_files (Some [abc; abc]) blank) blank blank abc [abc]);
    reflexivity.
Defined.

(** X7. [handleFileSelect] with nothing picked, app.js:148-152: the queue and the
    list are emptied and the function returns at once, so the total keeps
    the value of the previous selection, the send button stays as it was and
    nothing is logged. *)
Theorem empty_selection_keeps_the_old_total (fmt : nat → string) (w : World)
    (sel lst : Element) :
  fileSelector (elements w) = Some sel →
  files sel = None ∨ files sel = Some [] →
  fileList (elements w) = Some lst →
  ∃ w',
    handleFileSelect fmt w = Ok tt w' ∧
    fileQueue (state w') = [] ∧
    children <$> fileList (elements w') = Some [] ∧
    totalSize (state w') = totalSize (state w) ∧
    sendBtn (elements w') = sendBtn (elements w) ∧
    log w' = log w.
Proof.
  destruct w as [[sk pr lp sp' fq ix cf off rb rs ts ca mx]
                 [d fs fl sb pb pt sp] ps tm lg cs on nw].
  simpl. intros -> Hfiles ->.
  unfold handleFileSelect, assign. run_monad. simpl.
  destruct Hfiles as [-> | ->]; simpl; eexists; by repeat split.
Qed.

(** Files were picked, then the selection is cleared: the total still says
    3 bytes with nothing queued. *)
Lemma empty_selection_keeps_the_old_total_witness :
  ∃ w',
    handleFileSelect show_size
      (set_elements (set_fileSelector (Some (set_files (Some []) blank)))
                    negotiating) = Ok tt w' ∧
    fileQueue (state w') = [] ∧
    children <$> fileList (elements w') = Some [] ∧
    totalSize (state w') = 3 ∧
    sendBtn (elements w') = sendBtn (elements negotiating) ∧
    log w' = log negotiating.
Proof.
  apply (empty_selection_keeps_the_old_total show_size
           (set_elements (set_fileSelector (Some (set_files (Some []) blank)))
                         negotiating)
           (set_files (Some []) blank)
           (set_children [("a.txt", "3 Bytes", 0)] blank));
    [reflexivity | by right | reflexivity].
Defined.

(** X8. [handleFileSelect] on a page without the selector or without the list,
    app.js:148-149: a [TypeError] leaves the function before it has changed
    anything. *)
Theorem selection_needs_its_elements (fmt : nat → string) (w : World) :
  fileSelector (elements w) = None ∨ fileList (elements w) = None →
  ∃ error, handleFileSelect fmt w = Throw error w.
Proof.
  unfold handleFileSelect, assign. run_monad.
  destruct (fileSelector (elements w)) as [sel|] eqn:Hsel; simpl.
  - intros [[=]|Hlist]. rewrite Hlist. by eexists.
  - intros _. by eexists.
Qed.

Lemma selection_needs_its_elements_witness :
  ∃ error,
    handleFileSelect show_size
      (set_elements (set_fileList None) negotiating) =
    Throw error (set_elements (set_fileList None) negotiating).
Proof.
  apply (selection_needs_its_elements show_size
           (set_elements (set_fileList None) negotiating)).
  by right.
Defined.

(** X9. The click listener of a remove button, app.js:170-174, on a page that
    has the selector and the list: the [splice] is undone at once, because
    [handleFileSelect] rebuilds the queue from the selector; the click does
    what [handleFileSelect] alone does, and never shortens the queue. *)
Theorem remove_click_removes_nothing (fmt : nat → string) (index : nat)
    (w : World) :
  is_Some (fileSelector (elements w)) → is_Some (fileList (elements w)) →
  on_remove_click fmt index w = handleFileSelect fmt w.
Proof.
  destruct w as [[sk pr lp sp' fq ix cf off rb rs ts ca mx]
                 [d fs fl sb pb pt sp] ps tm lg cs on nw].
  simpl. intros [sel ->] [lst ->].
  unfold on_remove_click, handleFileSelect, assign. run_monad. simpl.
  destruct (files sel) as [[|first others]|]; simpl; [done| |done].
  by destruct sb.
Qed.

(** The row of a.txt is removed on the sample page: a.txt is still queued. *)
Lemma remove_click_removes_nothing_witness :
  on_remove_click show_size 0 negotiating = handleFileSelect show_size negotiating ∧
  fileQueue (state (world_of (on_remove_click show_size 0 negotiating))) = [abc].
Proof.
  split; [|reflexivity].
  apply (remove_click_removes_nothing show_size 0 negotiating); by eexists.
Defined.

(** ** Teardown and the next transfer *)

Lemma cleanup_frame (w : World) :
  selectedPeerId (state (world_of (cleanup w))) = "" ∧
  fileQueue (state (world_of (cleanup w))) = fileQueue (state w) ∧
  totalSize (state (world_of (cleanup w))) = totalSize (state w) ∧
  timers (world_of (cleanup w)) = timers w ∧
  log (world_of (cleanup w)) = log w.
Proof.
  destruct w as [[sk pr lp sp' fq ix cf off rb rs ts ca mx]
                 [d fs fl sb pb pt sp] ps tm lg cs on nw].
  unfold cleanup, assign, peer_destroy. run_monad. simpl.
  destruct pr as [r|]; simpl.
  - destruct (ps !! r) as [p|]; simpl; [destruct (destroy_fault p); simpl|];
      destruct d, pb, pt, sp; simpl; by repeat split.
  - destruct d, pb, pt, sp; simpl; by repeat split.
Qed.

(** X10. [cleanup], app.js:270-287, forgets the chosen peer and nothing else of
    the transfer: the queue, its total and the armed timers stay, and the
    log is not written. So, however [cleanup] ended, the next
    [initiateTransfer] is refused with the error entry of app.js:184 and
    creates no peer, until a peer is picked again. *)
Theorem cleanup_forgets_only_the_peer_choice (w : World) :
  let w1 := world_of (cleanup w) in
  selectedPeerId (state w1) = "" ∧
  fileQueue (state w1) = fileQueue (state w) ∧
  totalSize (state w1) = totalSize (state w) ∧
  timers w1 = timers w ∧ log w1 = log w ∧
  initiateTransfer w1 =
    Ok tt (set_log (fun l => l ++
             [("Please select a peer and files first", "error")]) w1).
Proof.
  intros w1. destruct (cleanup_frame w) as (Hsel & Hq & Ht & Htm & Hlog).
  fold w1 in Hsel, Hq, Ht, Htm, Hlog.
  repeat (split; [assumption|]).
  rewrite create_after_destroy, Hsel. reflexivity.
Qed.

(** X11. [peer.destroy()] that throws: [cleanup] catches it, app.js:272-276, so on
    a page with its buttons and progress elements it still ends normally
    with [state.peer] null and the error on the console, the peer object
    left as it was; [initiateTransfer] has no such guard, app.js:191-194, so
    the exception leaves it after the first log entry, with [state.peer]
    still holding the old peer and no new one created. *)
Theorem throwing_destroy_is_caught_by_cleanup_only (w : World) (old : nat)
    (p : Peer) (message : string) :
  peer (state w) = Some old → peers w !! old = Some p →
  destroy_fault p = Some message →
  (selectedPeerId (state w) ≠ "" → fileQueue (state w) ≠ [] →
   initiateTransfer w =
     Throw message (set_log (fun l => l ++ [("Initiating transfer...", "info")]) w)) ∧
  peer (state (world_of (cleanup w))) = None ∧
  peers (world_of (cleanup w)) = peers w ∧
  (is_Some (discoverBtn (elements w)) → is_Some (progressBar (elements w)) →
   is_Some (progressText (elements w)) → is_Some (speedText (elements w)) →
   ∃ w', cleanup w = Ok tt w' ∧
         console w' = console w ++ ["Error cleaning up peer: " +:+ message]).
Proof.
  intros Hold Hp Hfault. split; [|split; [|split]].
  - intros Hsel Hqueue. rewrite create_after_destroy, Hold, Hp, Hfault.
    destruct (String.eqb_spec (selectedPeerId (state w)) ""); [done|].
    destruct (fileQueue (state w)); [done|]. reflexivity.
  - apply cleanup_peers.
  - destruct (cleanup_peers w) as [_ ->]. by rewrite Hold, Hp, Hfault.
  - destruct w as [[sk pr lp sp' fq ix cf off rb rs ts ca mx]
                   [d fs fl sb pb pt sp] ps tm lg cs on nw].
    simpl in *. subst pr. intros [? ->] [? ->] [? ->] [? ->].
    unfold cleanup, assign, peer_destroy. run_monad. simpl.
    rewrite Hp. simpl. rewrite Hfault. simpl. by eexists.
Qed.

Lemma throwing_destroy_is_caught_by_cleanup_only_witness :
  initiateTransfer stubborn =
    Throw "already closed"
          (set_log (fun l => l ++ [("Initiating transfer...", "info")]) stubborn) ∧
  peer (state (world_of (cleanup stubborn))) = None ∧
  ∃ w', cleanup stubborn = Ok tt w' ∧
        console w' = ["Error cleaning up peer: already closed"].
Proof.
  destruct (throwing_destroy_is_caught_by_cleanup_only stubborn 0
              (mkPeer true false false [] (Some "already closed") []
                      ["data"; "close"; "error"; "connect"; "signal"])
              "already closed") as (H1 & H2 & _ & H4); [reflexivity..|].
  split; [apply H1; discriminate|]. split; [exact H2|].
  apply H4; by eexists.
Defined.

(** ** The connection timeout *)

(** X12. [initiateTransfer] arms a timeout for the peer it creates and clears
    none, app.js:190-210, and the timeout callback looks at [state.peer] as
    it is when it fires. So when Send is clicked again while the timeout of
    the replaced peer is still armed, that timeout stays armed, and when it
    fires before the new peer has connected, the new peer is destroyed and
    [state.peer] is null. *)
Theorem stale_timeout_tears_down_the_new_peer (w : World) (old : nat) (p : Peer) :
  peer (state w) = Some old → peers w !! old = Some p →
  destroy_fault p = None →
  selectedPeerId (state w) ≠ "" → fileQueue (state w) ≠ [] →
  TransferTimeout old ∈ timers w →
  ∃ w1,
    initiateTransfer w = Ok tt w1 ∧
    peer (state w1) = Some (length (peers w)) ∧
    live w1 (length (peers w)) ∧
    TransferTimeout old ∈ timers w1 ∧
    peer (state (world_of (on_transfer_timeout w1))) = None ∧
    ¬ live (world_of (on_transfer_timeout w1)) (length (peers w)).
Proof.
  intros Hold Hp Hfault Hsel Hqueue Htimer.
  rewrite create_after_destroy, Hold, Hp, Hfault.
  destruct (String.eqb_spec (selectedPeerId (state w)) ""); [done|].
  destruct (fileQueue (state w)); [done|]. simpl.
  set (h := <[old := _]> (peers w)).
  assert (Hlen : length h = length (peers w)) by apply length_insert.
  rewrite Hlen.
  eexists. split; [reflexivity|]. simpl.
  assert (Hnew : ∀ x, (h ++ [x]) !! length (peers w) = Some x).
  { intros x. apply list_lookup_middle. by rewrite Hlen. }
  split; [reflexivity|]. split; [eexists; split; [apply Hnew|reflexivity]|].
  split; [apply elem_of_app; by left|].
  unfold on_transfer_timeout. run_monad. simpl.
  unfold peer_connected. simpl. rewrite Hnew. simpl.
  match goal with |- context [cleanup ?w2] =>
    destruct (cleanup_peers w2) as [Hnull Hheap] end.
  split; [exact Hnull|].
  intros (q & Hq & Hlive). rewrite Hheap in Hq. simpl in Hq.
  rewrite Hnew in Hq. simpl in Hq.
  rewrite insert_app_r_alt in Hq by lia.
  rewrite Hlen, Nat.sub_diag in Hq. simpl in Hq.
  rewrite list_lookup_middle in Hq by done. by simplify_eq.
Qed.

(** Send is clicked twice on the sample page, then the first timeout
    fires. *)
Lemma stale_timeout_tears_down_the_new_peer_witness :
  ∃ w1,
    initiateTransfer negotiating = Ok tt w1 ∧
    peer (state w1) = Some 1 ∧ live w1 1 ∧
    TransferTimeout 0 ∈ timers w1 ∧
    peer (state (world_of (on_transfer_timeout w1))) = None ∧
    ¬ live (world_of (on_transfer_timeout w1)) 1.
Proof.
  apply (stale_timeout_tears_down_the_new_peer negotiating 0
           (mkPeer true false false [] None []
                   ["data"; "close"; "error"; "connect"; "signal"]));
    [reflexivity | reflexivity | reflexivity | discriminate | discriminate
    | constructor].
Defined.

(** ** Signals on their way to the relay *)

(** X13. The ['signal'] listener, app.js:218-225, with the relay behind it. An
    offer is emitted as [offer] with the selected peer as target and
    logged, and the relay hands it to that peer with the sender's id added;
    any other signal whose [candidate] is a true value (present, and not
    [null], [false], [0] or the empty string) is emitted as [ice-candidate]
    and arrives bare; a signal that is neither, an answer say, is not
    emitted at all. A signal that is [null] makes the listener throw. *)
Theorem signals_reach_the_selected_peer (w : World) (s : Socket) (data : json)
    (sv : Relay.Server) (self : Relay.EndpointId) :
  socket (state w) = Some s →
  selectedPeerId (state w) ∈ Relay.sockets sv → selectedPeerId (state w) ≠ self →
  let target := selectedPeerId (state w) in
  let is_offer := match get_prop "type" data with
                  | Some (JStr t) => String.eqb t "offer"
                  | _ => false
                  end in
  let has_candidate := match get_prop "candidate" data with
                       | None | Some JNull | Some (JBool false)
                       | Some (JNum 0%Z) | Some (JStr "") => false
                       | Some _ => true
                       end in
  on_peer_signal JNull w = Throw "TypeError: Cannot read properties of null" w ∧
  (data ≠ JNull →
   if is_offer then
     on_peer_signal data w =
       Ok tt (set_log (fun l => l ++ [("Sent offer to peer", "info")])
                (set_state (set_socket (Some (set_emitted
                   (emitted s ++ [("offer", [data; JStr target])]) s))) w)) ∧
     snd (Relay.step sv (Relay.Packet self "offer" data (Relay.Room target))) =
       [Relay.mkEmit target "offer" [data; JStr self]]
   else if has_candidate then
     on_peer_signal data w =
       Ok tt (set_state (set_socket (Some (set_emitted
                (emitted s ++ [("ice-candidate", [data; JStr target])]) s))) w) ∧
     snd (Relay.step sv
            (Relay.Packet self "ice-candidate" data (Relay.Room target))) =
       [Relay.mkEmit target "ice-candidate" [data]]
   else on_peer_signal data w = Ok tt w).
Proof.
  intros Hs Hin Hne target is_offer has_candidate.
  split; [reflexivity|]. intros Hdata.
  assert (Hoffer :
    snd (Relay.step sv (Relay.Packet self "offer" data (Relay.Room target))) =
    [Relay.mkEmit target "offer" [data; JStr self]]).
  { unfold Relay.step. rewrite RelayFacts.listener_lookup. simpl.
    unfold Relay.on_offer. rewrite RelayFacts.socket_to_emit_spec.
    by rewrite decide_True. }
  assert (Hcandidate :
    snd (Relay.step sv
           (Relay.Packet self "ice-candidate" data (Relay.Room target))) =
    [Relay.mkEmit target "ice-candidate" [data]]).
  { unfold Relay.step. rewrite RelayFacts.listener_lookup. simpl.
    unfold Relay.on_ice_candidate. rewrite RelayFacts.socket_to_emit_spec.
    by rewrite decide_True. }
  assert (Hrun : on_peer_signal data w =
    (target <- gets (fun w => selectedPeerId (state w));;
     if is_offer then
       socket_emit "offer" [data; JStr target];;;
       logMessage "Sent offer to peer" "info"
     else if has_candidate then
       socket_emit "ice-candidate" [data; JStr target]
     else ret tt) w).
  { by destruct data. }
  rewrite Hrun. unfold socket_emit. run_monad. cbv beta iota.
  fold target. destruct is_offer.
  - rewrite Hs. split; [reflexivity|exact Hoffer].
  - destruct has_candidate; [|reflexivity].
    rewrite Hs. split; [reflexivity|exact Hcandidate].
Qed.

(** The sample page hands the relay an offer, a signal whose candidate is
    [null], and [null]. *)
Lemma signals_reach_the_selected_peer_witness :
  (on_peer_signal sample_offer signalling =
     Ok tt (set_log (fun l => l ++ [("Sent offer to peer", "info")])
              (set_state (set_socket (Some (set_emitted
                 [("offer", [sample_offer; JStr "peerB"])]
                 (mkSocket io_options "" false [])))) signalling)) ∧
   snd (Relay.step two_endpoints
          (Relay.Packet "peerA" "offer" sample_offer (Relay.Room "peerB"))) =
     [Relay.mkEmit "peerB" "offer" [sample_offer; JStr "peerA"]]) ∧
  on_peer_signal empty_candidate signalling = Ok tt signalling ∧
  on_peer_signal JNull signalling =
    Throw "TypeError: Cannot read properties of null" signalling.
Proof.
  assert (Hin : selectedPeerId (state signalling) ∈ Relay.sockets two_endpoints)
    by (vm_compute; repeat constructor).
  assert (Hne : selectedPeerId (state signalling) ≠ "peerA") by discriminate.
  destruct (signals_reach_the_selected_peer signalling
              (mkSocket io_options "" false []) sample_offer two_endpoints
              "peerA" eq_refl Hin Hne) as [Hnull Hoffer].
  destruct (signals_reach_the_selected_peer signalling
              (mkSocket io_options "" false []) empty_candidate two_endpoints
              "peerA" eq_refl Hin Hne) as [_ Hempty].
  split; [apply Hoffer; discriminate|].
  split; [apply Hempty; discriminate|exact Hnull].
Defined.

(** ** Reconnecting *)

(** X14. The ['connect'] listener, app.js:88-94, between connection errors: it
    sets the counter back to 0, takes the socket's id as the local peer id,
    marks the page online and asks for the peer list once; so the counter
    holds the errors since the last connection, not all of them. *)
Theorem connect_resets_the_error_count (w : World) (s : Socket)
    (before after : nat) :
  socket (state w) = Some s → options s = io_options →
  ∃ w1 w2 w3,
    connect_errors before w = Ok true w1 ∧
    on_socket_connect w1 = Ok tt w2 ∧
    connectionAttempts (state w2) = 0 ∧
    localPeerId (state w2) = id s ∧ online w2 = true ∧
    socket (state w2) = Some (set_emitted (emitted s ++ [("discover", [])]) s) ∧
    connect_errors after w2 = Ok true w3 ∧
    connectionAttempts (state w3) = after.
Proof.
  intros Hs Ho.
  destruct (connect_errors_unbounded before w s Hs Ho) as (w1 & Hrun1 & Hs1 & _).
  assert (Hconnect : ∃ w2,
    on_socket_connect w1 = Ok tt w2 ∧ connectionAttempts (state w2) = 0 ∧
    localPeerId (state w2) = id s ∧ online w2 = true ∧
    socket (state w2) = Some (set_emitted (emitted s ++ [("discover", [])]) s)).
  { unfold on_socket_connect, startPeerDiscovery, socket_emit. run_monad. simpl.
    rewrite Hs1. simpl. eexists. split; [reflexivity|]. simpl.
    rewrite Hs1. by repeat split. }
  destruct Hconnect as (w2 & Hrun2 & Hzero & Hid & Hup & Hs2).
  destruct (connect_errors_unbounded after w2
              (set_emitted (emitted s ++ [("discover", [])]) s))
    as (w3 & Hrun3 & _ & Hn3); [exact Hs2|exact Ho|].
  exists w1, w2, w3. rewrite Hzero in Hn3. by repeat split.
Qed.

Lemma connect_resets_the_error_count_witness :
  ∃ w1 w2 w3,
    connect_errors 4 (world_of (initializeSocketConnection (initial sample_page 0)))
      = Ok true w1 ∧
    on_socket_connect w1 = Ok tt w2 ∧
    connectionAttempts (state w2) = 0 ∧
    localPeerId (state w2) = "" ∧ online w2 = true ∧
    socket (state w2) =
      Some (set_emitted [("discover", [])] (mkSocket io_options "" false [])) ∧
    connect_errors 2 w2 = Ok true w3 ∧
    connectionAttempts (state w3) = 2.
Proof.
  apply (connect_resets_the_error_count
           (world_of (initializeSocketConnection (initial sample_page 0)))
           (mkSocket io_options "" false []) 4 2); reflexivity.
Defined.

(** ** One live peer, on every page *)

Lemma destroyable_insert (w : World) (r : nat) (p q : Peer) :
  peers w !! r = Some p → destroy_fault q = destroy_fault p →
  destroyable w → destroyable (set_peers (<[r := q]>) w).
Proof.
  intros Hp Hq Hw r' p' Hp'. simpl in Hp'.
  destruct (decide (r' = r)) as [->|Hne].
  - rewrite list_lookup_insert_eq in Hp' by by eapply lookup_lt_Some.
    injection Hp' as <-. rewrite Hq. by eapply Hw.
  - rewrite list_lookup_insert_ne in Hp' by done. by eapply Hw.
Qed.

Lemma sendData_destroyable (data : Message) (w : World) :
  destroyable w → destroyable (world_of (sendData data w)).
Proof.
  intros Hw. unfold sendData. run_monad.
  destruct (peer (state w)) as [r|] eqn:Hr; simpl; [|exact Hw].
  unfold peer_connected, peer_send.
  destruct (peers w !! r) as [p|] eqn:Hp; simpl; [|exact Hw].
  destruct (connected p) eqn:Hc; simpl; rewrite ?Hp; simpl; [|exact Hw].
  destruct (head (send_faults p)) as [[m|]|]; simpl.
  - apply (destroyable_insert w r p (set_send_faults (tail (send_faults p)) p));
      auto.
  - by apply (destroyable_insert w r p).
  - by apply (destroyable_insert w r p).
Qed.

Lemma loop_destroyable (fuel : nat) (w : World) :
  destroyable w → destroyable (world_of (sendNextFile_loop fuel w)).
Proof.
  revert w. induction fuel as [|fuel IH]; intros w Hw; simpl; [exact Hw|].
  run_monad.
  destruct (fileQueue (state w) !! currentFileIndex (state w)) as [file|]; simpl;
    [|exact Hw].
  destruct (decide _) as [Hend|Hmore]; simpl.
  - apply IH. exact Hw.
  - pose proof (sendData_destroyable
                  (Binary (slice file (currentOffset (state w))
                                 (currentOffset (state w) + CHUNK_SIZE))) w Hw) as Hk.
    destruct (sendData _ w) as [[] w1|e w1]; simpl in *.
    + apply IH. exact Hk.
    + exact Hk.
    + exact Hk.
Qed.

Lemma startFileTransfer_destroyable (w : World) :
  destroyable w → destroyable (world_of (startFileTransfer w)).
Proof.
  intros Hw.
  unfold startFileTransfer, startFileTransfer_with, bind, modify, gets.
  set (w0 := set_state _ w). set (m := Text _).
  pose proof (sendData_destroyable m w0 Hw) as Hk.
  destruct (sendData m w0) as [b w1|e w1]; simpl in *; [|exact Hk].
  by apply loop_destroyable.
Qed.

Lemma handleFileSelect_peer (fmt : nat → string) (w : World) :
  peer (state (world_of (handleFileSelect fmt w))) = peer (state w).
Proof.
  destruct w as [[sk pr lp sp' fq ix cf off rb rs ts ca mx]
                 [d fs fl sb pb pt sp] ps tm lg cs on nw].
  unfold handleFileSelect, assign. run_monad. simpl.
  destruct fs as [sel|]; simpl; [|done].
  destruct fl as [lst|]; simpl; [|done].
  destruct (files sel) as [[|first others]|]; simpl; [done| |done].
  destruct sb; reflexivity.
Qed.

Lemma one_peer_same_heap (w w' : World) :
  peers w' = peers w → peer (state w') = peer (state w) →
  one_peer w → one_peer w'.
Proof.
  intros Hh Hp Hone r (q & Hq & Hlive). rewrite Hp. apply Hone.
  exists q. by rewrite <- Hh.
Qed.

Lemma destroyable_same_heap (w w' : World) :
  peers w' = peers w → destroyable w → destroyable w'.
Proof. intros Hh Hw r p Hp. rewrite Hh in Hp. by eapply Hw. Qed.

Lemma initiateTransfer_keeps_one_peer (w : World) :
  one_peer w → destroyable w →
  one_peer (world_of (initiateTransfer w)) ∧
  destroyable (world_of (initiateTransfer w)).
Proof.
  intros Hone Hw. rewrite create_after_destroy.
  destruct (_ || _); [done|].
  destruct (peer (state w)) as [old|] eqn:Hold.
  - destruct (peers w !! old) as [p|] eqn:Hp; [|done].
    destruct (destroy_fault p) eqn:Hfault; [done|]. simpl. split.
    + intros r (q & Hq & Hlive). simpl in *.
      apply lookup_snoc_Some in Hq as [[Hlt Hq]|[-> _]]; [|done].
      rewrite length_insert in Hlt. exfalso.
      destruct (decide (r = old)) as [->|Hne].
      * rewrite list_lookup_insert_eq in Hq by by eapply lookup_lt_Some.
        by simplify_eq.
      * rewrite list_lookup_insert_ne in Hq by done.
        assert (peer (state w) = Some r) by (apply Hone; by exists q).
        congruence.
    + intros r q Hq. simpl in Hq.
      apply lookup_snoc_Some in Hq as [[_ Hq]|[_ <-]]; [|done].
      by eapply (destroyable_insert w old p _ Hp); [|exact Hw|exact Hq].
  - simpl. split.
    + intros r (q & Hq & Hlive). simpl in *.
      apply lookup_snoc_Some in Hq as [[Hlt Hq]|[-> _]]; [|done].
      assert (peer (state w) = Some r) by (apply Hone; by exists q).
      congruence.
    + intros r q Hq. simpl in Hq.
      apply lookup_snoc_Some in Hq as [[_ Hq]|[_ <-]]; [|done].
      by eapply Hw.
Qed.

Lemma cleanup_keeps_one_peer (w : World) :
  one_peer w → destroyable w →
  one_peer (world_of (cleanup w)) ∧ destroyable (world_of (cleanup w)).
Proof.
  intros Hone Hw. destruct (cleanup_peers w) as [Hnull Hheap].
  assert (Hdead : ∀ r q, peers (world_of (cleanup w)) !! r = Some q →
            destroy_fault q = None ∧ destroyed q = true).
  { intros r q. rewrite Hheap.
    destruct (peer (state w)) as [old|] eqn:Hold.
    - destruct (peers w !! old) as [p|] eqn:Hp.
      + rewrite (Hw old p Hp). intros Hq.
        destruct (decide (r = old)) as [->|Hne].
        * rewrite list_lookup_insert_eq in Hq by by eapply lookup_lt_Some.
          injection Hq as <-. split; [exact (Hw old p Hp)|done].
        * rewrite list_lookup_insert_ne in Hq by done.
          split; [by eapply Hw|]. destruct (destroyed q) eqn:Hd; [done|].
          assert (peer (state w) = Some r) by (apply Hone; by exists q).
          congruence.
      + intros Hq. split; [by eapply Hw|].
        destruct (destroyed q) eqn:Hd; [done|].
        assert (peer (state w) = Some r) by (apply Hone; by exists q).
        congruence.
    - intros Hq. split; [by eapply Hw|].
      destruct (destroyed q) eqn:Hd; [done|].
      assert (peer (state w) = Some r) by (apply Hone; by exists q).
      congruence. }
  split.
  - intros r (q & Hq & Hlive). destruct (Hdead r q Hq). congruence.
  - intros r q Hq. by destruct (Hdead r q Hq).
Qed.

Lemma dispatch_keeps_one_peer (fmt : nat → string) (w : World) (ev : Event) :
  one_peer w → destroyable w →
  one_peer (dispatch fmt w ev) ∧ destroyable (dispatch fmt w ev).
Proof.
  intros Hone Hw. destruct ev as [picked|index|peerId| | |r|r script|]; simpl.
  - split.
    + apply (one_peer_same_heap w);
        [by rewrite handleFileSelect_peers|by rewrite handleFileSelect_peer|done].
    + apply (destroyable_same_heap w); [by rewrite handleFileSelect_peers|done].
  - unfold on_remove_click. run_monad. simpl. split.
    + apply (one_peer_same_heap w);
        [by rewrite handleFileSelect_peers|by rewrite handleFileSelect_peer|done].
    + apply (destroyable_same_heap w); [by rewrite handleFileSelect_peers|done].
  - done.
  - by apply initiateTransfer_keeps_one_peer.
  - unfold on_transfer_timeout. run_monad. simpl.
    destruct (_ && _); [|done].
    apply cleanup_keeps_one_peer; [|exact Hw].
    by eapply one_peer_same_heap; [..|exact Hone].
  - destruct (peers w !! r) as [p|] eqn:Hp; [|done].
    destruct (destroyed p || connected p) eqn:Hflags; [done|].
    apply orb_false_elim in Hflags as [Hd Hc].
    unfold on_peer_connect. run_monad. simpl.
    set (w2 := set_log _ _).
    assert (Hone2 : one_peer w2).
    { intros r' (q & Hq & Hlive). simpl in Hq. apply Hone.
      destruct (decide (r' = r)) as [->|Hne]; [by exists p|].
      rewrite list_lookup_insert_ne in Hq by done. by exists q. }
    assert (Hw2 : destroyable w2).
    { by apply (destroyable_insert w r p). }
    split; [|by apply startFileTransfer_destroyable].
    destruct (startFileTransfer_session w2)
      as (b & w3 & rest & _ & (_ & _ & Hpeer & _) & _).
    intros r' (q' & Hq' & Hlive').
    destruct (startFileTransfer_channels w2 r' q' Hq') as (q & Hq & _ & Hdq & _).
    rewrite Hpeer. apply Hone2. exists q. split; [done|congruence].
  - split.
    + intros r' (q & Hq & Hlive). simpl in Hq. apply Hone.
      destruct (peers w !! r) as [p|] eqn:Hp; simpl in Hq; [|by exists q].
      destruct (decide (r' = r)) as [->|Hne].
      * rewrite list_lookup_insert_eq in Hq by by eapply lookup_lt_Some.
        injection Hq as <-. by exists p.
      * rewrite list_lookup_insert_ne in Hq by done. by exists q.
    + destruct (peers w !! r) as [p|] eqn:Hp; simpl.
      * intros r' q Hq. simpl in Hq. rewrite Hp in Hq. simpl in Hq.
        by eapply (destroyable_insert w r p (set_send_faults script p)).
      * intros r' q Hq. simpl in Hq. rewrite Hp in Hq. by eapply Hw.
  - by apply cleanup_keeps_one_peer.
Qed.

(** X15. However the page got where it is (files picked or removed, peers
    picked, Send clicked any number of times, timeouts, channels opening,
    sends failing, teardown), every peer object that was ever created and
    is not yet destroyed is the one [state.peer] holds: [initiateTransfer],
    app.js:190-200, and [cleanup], app.js:271-278, are the only places that
    replace or drop the reference, and both destroy the object first. *)
Theorem running_page_has_one_live_peer (fmt : nat → string) (page : Elements)
    (clock : Z) (evs : list Event) :
  one_peer (run fmt (initial page clock) evs).
Proof.
  assert (Hall : ∀ evs w, one_peer w → destroyable w →
                          one_peer (run fmt w evs)).
  { clear evs. induction evs as [|ev evs IH]; intros w Hone Hw; [done|].
    simpl. destruct (dispatch_keeps_one_peer fmt w ev Hone Hw). by apply IH. }
  apply Hall.
  - intros r (q & Hq & _). by destruct r.
  - intros r q Hq. by destruct r.
Qed.

End ClientMore.
